(** * HashSet: a hash set of [int] keys kept in one shared [std::list]

    Shallow embedding of [hash.cpp].  The container keeps every key in one
    doubly linked list, [allKeys]; the bucket table [buckets] holds, per
    bucket, an iterator to the first list node of that bucket's run, or
    [allKeys.end()].

    List iterators stay valid while other nodes are inserted or erased, so
    a node is modelled with an identity of its own (its address), chosen
    fresh when the node is allocated; an iterator is such an identity, or
    the end of the list.  Operations whose behaviour C++ leaves undefined
    (an index out of range, an iterator to no node of the list, a remainder
    by zero) return [None]. *)

From Stdlib Require Import ZArith List Lia.
From Stdlib Require Import Floats.SpecFloat.
From stdpp Require Import base tactics option list numbers sorting.

Open Scope Z_scope.

(** ** Machine integers *)

(** [std::size_t]: 64 bits, unsigned, arithmetic modulo [2^64]. *)
Definition to_size_t (z : Z) : Z := z mod 2 ^ 64.

(** [int]: 32 bits, two's complement; conversion from a wider type wraps. *)
Definition to_int (z : Z) : Z := (z + 2 ^ 31) mod 2 ^ 32 - 2 ^ 31.

Definition is_int (k : Z) : Prop := - 2 ^ 31 <= k < 2 ^ 31.

Definition is_size_t (n : Z) : Prop := 0 <= n < 2 ^ 64.

(** ** [float]: IEEE 754 binary32 (24 bits of precision, [emax] 128) *)

Definition float_of (n : Z) : spec_float := binary_normalize 24 128 n 0 false.

Definition fdiv (x y : spec_float) : spec_float := SFdiv 24 128 x y.

(** [x > y] and [x <= y] on floats; both are false when an operand is NaN. *)
Definition fgt (x y : spec_float) : bool := SFltb y x.

Definition fle (x y : spec_float) : bool := SFleb x y.

(** ** The list and its iterators *)

Inductive Iterator : Type :=
| At (n : nat)
| End.

Global Instance Iterator_eq_dec : EqDecision Iterator.
Proof. solve_decision. Defined.

(** A list node: its identity and the key it holds. *)
Notation "'Node'" := (nat * Z)%type.

(** [allKeys.begin()] of a list, or of what is left of one. *)
Definition head_it (l : list Node) : Iterator :=
  match l with
  | [] => End
  | x :: _ => At x.1
  end.

(** The nodes from the one with identity [n] to the end of the list. *)
Fixpoint seek (n : nat) (l : list Node) : option (list Node) :=
  match l with
  | [] => None
  | x :: l' => if decide (x.1 = n) then Some l else seek n l'
  end.

(** What an iterator of list [l] still has in front of it; an iterator to
    no node of [l] is invalid. *)
Definition from (l : list Node) (it : Iterator) : option (list Node) :=
  match it with
  | End => Some []
  | At n => seek n l
  end.

(** [l.insert(pos, key)], the new node being [x]. *)
Fixpoint insert_before (pos : Iterator) (x : Node) (l : list Node)
  : option (list Node) :=
  match l with
  | [] => match pos with End => Some [x] | At _ => None end
  | y :: l' =>
      if decide (pos = At y.1) then Some (x :: l)
      else l'' ← insert_before pos x l'; Some (y :: l'')
  end.

(** [l.erase(it)] for an iterator to the node [n]. *)
Fixpoint erase_node (n : nat) (l : list Node) : list Node :=
  match l with
  | [] => []
  | y :: l' => if decide (y.1 = n) then l' else y :: erase_node n l'
  end.

(** [std::distance(first, last)] on list iterators: the number of
    increments that take [first] to [last]; [last] has to be reachable. *)
Fixpoint steps_to (last : Iterator) (rest : list Node) : option Z :=
  match rest with
  | [] => match last with End => Some 0 | At _ => None end
  | x :: rest' =>
      if decide (last = At x.1) then Some 0
      else n ← steps_to last rest'; Some (n + 1)
  end.

Definition distance (l : list Node) (first last : Iterator) : option Z :=
  rest ← from l first; steps_to last rest.

(** ** The container *)

Record HashSet : Type := mkHashSet {
  allKeys : list Node;
  buckets : list Iterator;
  countElements : Z;
  maxLFactor : spec_float;
  currentPrimeIndex : Z;
  (* identity of the next list node to be allocated *)
  nextNode : nat
}.

(** The keys in iteration order, [begin()] to [end()]. *)
Definition keys (s : HashSet) : list Z := (allKeys s).*2.

Definition begin (s : HashSet) : Iterator := head_it (allKeys s).

Definition size (s : HashSet) : Z := countElements s.

Definition empty (s : HashSet) : bool := bool_decide (countElements s = 0).

Definition bucketCount (s : HashSet) : Z := Z.of_nat (length (buckets s)).

(** The body of [HashSet::bucket] (hash.cpp:231-239), as a function of the
    bucket count:
<<
  int mod = key % static_cast<int>(bucketCount);
  if (mod < 0) mod += bucketCount;
  return static_cast<std::size_t>(mod);
>>
    [%] truncates towards zero ([Z.rem]); [mod += bucketCount] is computed
    in [std::size_t] and converted back to [int]. *)
Definition bucket_of (bucketCount key : Z) : option Z :=
  let d := to_int bucketCount in
  if decide (d = 0) then None
  else if decide (key = - 2 ^ 31 ∧ d = -1) then None
  else
    let m := Z.rem key d in
    let m := if decide (m < 0)
             then to_int (to_size_t (to_size_t m + bucketCount))
             else m in
    Some (to_size_t m).

Definition bucket (s : HashSet) (key : Z) : option Z :=
  bucket_of (bucketCount s) key.

(** [loadFactor] (hash.cpp:242-246); both operands of the division are
    converted to [float]. *)
Definition loadFactor (s : HashSet) : spec_float :=
  if decide (bucketCount s > 0)
  then fdiv (float_of (countElements s)) (float_of (bucketCount s))
  else S754_zero false.

Definition maxLoadFactor (s : HashSet) : spec_float := maxLFactor s.

(** The loop of [contains] (hash.cpp:103-116), on what the iterator has in
    front of it. *)
Fixpoint contains_loop (c b key : Z) (rest : list Node) : option bool :=
  match rest with
  | [] => Some false
  | x :: rest' =>
      b' ← bucket_of c x.2;
      if decide (b' = b)
      then if decide (x.2 = key) then Some true
           else contains_loop c b key rest'
      else Some false
  end.

Definition contains (s : HashSet) (key : Z) : option bool :=
  b ← bucket s key;
  enteredKey ← buckets s !! Z.to_nat b;
  rest ← from (allKeys s) enteredKey;
  contains_loop (bucketCount s) b key rest.

(** [find] (hash.cpp:120-131): the loop of [contains], with the iterator
    for an answer. *)
Fixpoint find_loop (c b key : Z) (rest : list Node) : option Iterator :=
  match rest with
  | [] => Some End
  | x :: rest' =>
      b' ← bucket_of c x.2;
      if decide (b' = b)
      then if decide (x.2 = key) then Some (At x.1)
           else find_loop c b key rest'
      else Some End
  end.

Definition find (s : HashSet) (key : Z) : option Iterator :=
  b ← bucket s key;
  findKey ← buckets s !! Z.to_nat b;
  rest ← from (allKeys s) findKey;
  find_loop (bucketCount s) b key rest.

(** [bucketSize] (hash.cpp:218-228): the length of the run a bucket's
    iterator starts. *)
Fixpoint run_length (c b : Z) (rest : list Node) : option Z :=
  match rest with
  | [] => Some 0
  | x :: rest' =>
      b' ← bucket_of c x.2;
      if decide (b' = b)
      then n ← run_length c b rest'; Some (to_size_t (n + 1))
      else Some 0
  end.

Definition bucketSize (s : HashSet) (b : Z) : option Z :=
  if decide (bucketCount s <= b) then Some 0
  else
    numKeys ← buckets s !! Z.to_nat b;
    if decide (numKeys = End) then Some 0
    else rest ← from (allKeys s) numKeys; run_length (bucketCount s) b rest.

(** ** Rehashing *)

Section WithSizes.

(** Modelled from the spec: the Sizing Table [sizes] is a member declared
    in [hash.hpp], which is not among the sources; it is "an ordered,
    ascending sequence of candidate bucket counts", "positive integers".
    It is a parameter here; [table_fits] and [table_ascending] below say
    what the proofs assume of it. *)
Variable sizes : list Z.

(** The first loop of [rehash] (hash.cpp:161-200): the first table entry
    [>= newSize] and its index.  The index stays below [sizes.size()], so [++i] does not wrap. *)
Fixpoint pick_size (newSize : Z) (l : list Z) (i : Z) : option (Z * Z) :=
  match l with
  | [] => None
  | n :: l' => if decide (n >= newSize) then Some (n, i)
               else pick_size newSize l' (i + 1)
  end.

(** The second loop: every key is pushed, in a node of its own, on the back
    of the temporary list of its new bucket. *)
Fixpoint distribute (newBCount : Z) (ks : list Z) (temp : list (list Node))
    (next : nat) : option (list (list Node) * nat) :=
  match ks with
  | [] => Some (temp, next)
  | key :: ks' =>
      b ← bucket_of newBCount key;
      run ← temp !! Z.to_nat b;
      distribute newBCount ks'
        (<[Z.to_nat b := run ++ [(next, key)]]> temp) (S next)
  end.

(** The third loop: the temporary lists are spliced, bucket after bucket,
    to the end of the emptied [allKeys]. *)
Fixpoint reassemble (temp : list (list Node)) (b : nat)
    (acc : list Node * list Iterator * Z) : list Node * list Iterator * Z :=
  match temp with
  | [] => acc
  | run :: temp' =>
      let '(all, bks, cnt) := acc in
      match run with
      | [] => reassemble temp' (S b) acc
      | x :: _ =>
          reassemble temp' (S b)
            (all ++ run, <[b := At x.1]> bks,
             to_size_t (cnt + Z.of_nat (length run)))
      end
  end.

Definition rehash (s : HashSet) (newSize : Z) : option HashSet :=
  back ← last sizes;
  let '(newBCount, newPrimeIndex) :=
    default (back, currentPrimeIndex s) (pick_size newSize sizes 0) in
  '(temp, next) ← distribute newBCount (keys s)
                    (replicate (Z.to_nat newBCount) []) (nextNode s);
  let '(all, bks, cnt) :=
    reassemble temp 0 ([], replicate (Z.to_nat newBCount) End, 0) in
  Some (mkHashSet all bks cnt (maxLFactor s) newPrimeIndex next).

(** ** Construction *)

(** The default constructor (hash.cpp:21-26): [sizes[0]] buckets, all
    empty; the maximum load factor is [1.0f]. *)
Definition HashSet_new : option HashSet :=
  n ← sizes !! 0%nat;
  Some (mkHashSet [] (replicate (Z.to_nat n) End) 0 (float_of 1) 0 0).

(** The loop of the copy constructor (hash.cpp:29-42): the first node met
    of a bucket becomes the bucket's iterator.

    The assignment operator (hash.cpp:45-52) has no definition here.  It
    swaps the members of the container with those of a copy passed by
    value, whose empty buckets hold the [end()] of the copy's own list;
    C++ leaves open whether an [end()] iterator follows the list through
    [std::swap], so what the empty buckets hold after the assignment, the
    container's [end()] or that of the destroyed copy, is not fixed by the
    source. *)
Fixpoint rebuild (c : Z) (nodes : list Node) (bks : list Iterator)
  : option (list Iterator) :=
  match nodes with
  | [] => Some bks
  | x :: rest =>
      b ← bucket_of c x.2;
      hb ← bks !! Z.to_nat b;
      rebuild c rest
        (if decide (hb = End) then <[Z.to_nat b := At x.1]> bks else bks)
  end.

Definition HashSet_copy (other : HashSet) : option HashSet :=
  bks ← rebuild (bucketCount other) (allKeys other)
        (replicate (length (buckets other)) End);
  Some (mkHashSet (allKeys other) bks (countElements other)
          (maxLFactor other) (currentPrimeIndex other) (nextNode other)).

(** ** Insertion *)

(** [while (pos != allKeys.end() && bucket( *pos) == b) ++pos;] *)
Fixpoint skip_run (c b : Z) (rest : list Node) : option Iterator :=
  match rest with
  | [] => Some End
  | x :: rest' =>
      b' ← bucket_of c x.2;
      if decide (b' = b) then skip_run c b rest' else Some (At x.1)
  end.

(** [while (nextBucket < buckets.size() && buckets[nextBucket] == end)
    ++nextBucket;], on the buckets from [nextBucket] on; [nextBucket] stays
    below [buckets.size()] inside the loop, so [++nextBucket] does not
    wrap. *)
Fixpoint skip_empty (bks : list Iterator) (nextBucket : Z) : Z :=
  match bks with
  | End :: bks' => skip_empty bks' (nextBucket + 1)
  | _ => nextBucket
  end.

(** The second half of [insert] (hash.cpp:67-98), from
    [std::size_t b = bucket(key)] on:
    the key, known to be new, gets a node at the end of its bucket's run,
    or in front of the next run when its bucket is empty. *)
Definition place (s : HashSet) (key : Z) : option HashSet :=
  b ← bucket s key;
  hb ← buckets s !! Z.to_nat b;
  pos ← (if decide (hb ≠ End)
         then rest ← from (allKeys s) hb; skip_run (bucketCount s) b rest
         else
           let first := to_size_t (b + 1) in
           let nextBucket :=
             skip_empty (drop (Z.to_nat first) (buckets s)) first in
           if decide (nextBucket < bucketCount s)
           then buckets s !! Z.to_nat nextBucket
           else Some End);
  let newIt := At (nextNode s) in
  all ← insert_before pos (nextNode s, key) (allKeys s);
  update ← (if decide (hb = End) then Some true
            else d ← distance all hb newIt; Some (bool_decide (d < 0)));
  let bks := if update : bool then <[Z.to_nat b := newIt]> (buckets s)
             else buckets s in
  Some (mkHashSet all bks (to_size_t (countElements s + 1))
          (maxLFactor s) (currentPrimeIndex s) (S (nextNode s))).

(** The growth test of [insert] (hash.cpp:64):
    [loadFactor() > maxLFactor && currentPrimeIndex + 1 < sizes.size()]. *)
Definition grows (s : HashSet) : bool :=
  fgt (loadFactor s) (maxLFactor s)
  && bool_decide (to_size_t (currentPrimeIndex s + 1)
                  < Z.of_nat (length sizes)).

(** [insert] (hash.cpp:58-100). *)
Definition insert (s0 : HashSet) (key : Z) : option HashSet :=
  present ← contains s0 key;
  if present : bool then Some s0
  else
    s ← (if grows s0
         then n ← sizes !! Z.to_nat (to_size_t (currentPrimeIndex s0 + 1));
              rehash s0 n
         else Some s0);
    place s key.

(** ** Erasure *)

(** [erase(Iterator)] (hash.cpp:142-158); the iterator has to be the end of
    the list or point at one of its nodes. *)
Definition erase_it (s : HashSet) (it : Iterator)
  : option (HashSet * Iterator) :=
  match it with
  | End => Some (s, End)
  | At n =>
      rest ← seek n (allKeys s);
      match rest with
      | [] => None
      | x :: rest' =>
          let key := x.2 in
          b ← bucket s key;
          hb ← buckets s !! Z.to_nat b;
          bks ← (if decide (hb = it)
                 then match rest' with
                      | [] => Some (<[Z.to_nat b := End]> (buckets s))
                      | y :: _ =>
                          b' ← bucket s y.2;
                          if decide (b' = b)
                          then Some (<[Z.to_nat b := At y.1]> (buckets s))
                          else Some (<[Z.to_nat b := End]> (buckets s))
                      end
                 else Some (buckets s));
          Some (mkHashSet (erase_node n (allKeys s)) bks
                  (to_size_t (countElements s - 1))
                  (maxLFactor s) (currentPrimeIndex s) (nextNode s),
                head_it rest')
      end
  end.

(** [erase(int)] (hash.cpp:134-138). *)
Definition erase (s : HashSet) (key : Z) : option HashSet :=
  eraseKey ← find s key;
  if decide (eraseKey ≠ End) then fst <$> erase_it s eraseKey
  else Some s.

(** ** The maximum load factor *)

(** The loop of the setter (hash.cpp:254-269) over the table entries after
    the current one:
    the first size that brings the load factor down to the maximum. *)
Fixpoint first_fit (cnt : Z) (maxLoad : spec_float) (cands : list Z)
  : option Z :=
  match cands with
  | [] => None
  | n :: cands' =>
      if fle (fdiv (float_of cnt) (float_of n)) maxLoad then Some n
      else first_fit cnt maxLoad cands'
  end.

Definition with_maxLFactor (s : HashSet) (maxLoad : spec_float) : HashSet :=
  mkHashSet (allKeys s) (buckets s) (countElements s) maxLoad
    (currentPrimeIndex s) (nextNode s).

Definition set_maxLoadFactor (s0 : HashSet) (maxLoad : spec_float)
  : option HashSet :=
  let s := with_maxLFactor s0 maxLoad in
  if fgt (loadFactor s) (maxLFactor s)
  then match first_fit (countElements s) (maxLFactor s)
               (drop (Z.to_nat (to_size_t (currentPrimeIndex s + 1))) sizes)
       with
       | Some n => rehash s n
       | None => Some s
       end
  else Some s.

(** ** The states of a container *)

(** What the public operations make of a freshly constructed container. *)
Inductive reachable : HashSet → Prop :=
| reach_new s :
    HashSet_new = Some s → reachable s
| reach_copy s s' :
    reachable s → HashSet_copy s = Some s' → reachable s'
| reach_insert s key s' :
    reachable s → is_int key → insert s key = Some s' → reachable s'
| reach_erase s key s' :
    reachable s → is_int key → erase s key = Some s' → reachable s'
| reach_erase_it s it s' next :
    reachable s → erase_it s it = Some (s', next) → reachable s'
| reach_rehash s n s' :
    reachable s → is_size_t n → rehash s n = Some s' → reachable s'
| reach_set_maxLoadFactor s maxLoad s' :
    reachable s → set_maxLoadFactor s maxLoad = Some s' → reachable s'.

(** A run of inserts, first key first. *)
Fixpoint insert_all (s : HashSet) (ks : list Z) : option HashSet :=
  match ks with
  | [] => Some s
  | key :: ks' => s' ← insert s key; insert_all s' ks'
  end.

(** ** What is assumed of the Sizing Table *)

(** Every bucket count of the table is positive and is one that survives
    the conversion to [int] in [bucket] and in [rehash]. *)
Definition table_fits (table : list Z) : Prop :=
  Forall (λ n, 0 < n <= 2 ^ 31) table.

(** The table is ascending, as the specification has it. *)
Definition table_ascending (table : list Z) : Prop :=
  ∀ (i j : nat) a b,
    table !! i = Some a → table !! j = Some b → (i < j)%nat → a < b.

(** ** The representation invariant *)

(** The key of node [x] belongs to bucket [b] of [c] buckets. *)
Definition in_bucket (c b : Z) (x : Node) : Prop := x.2 mod c = b.

(** [runs] holds, for every bucket in turn, the nodes of its keys. *)
Definition runs_ok (c : Z) (runs : list (list Node)) : Prop :=
  ∀ (b : nat) run,
    runs !! b = Some run → Forall (in_bucket c (Z.of_nat b)) run.

(** The list is the runs of the buckets one after the other, every bucket
    has the iterator to the head of its run, no key and no node occurs
    twice, and the count is the length of the list. *)
Record Inv (s : HashSet) : Prop := mkInv {
  inv_fits : 0 < bucketCount s <= 2 ^ 31;
  inv_table : bucketCount s ∈ sizes;
  inv_index : 0 <= currentPrimeIndex s < Z.of_nat (length sizes);
  inv_runs : ∃ runs, allKeys s = concat runs
                     ∧ buckets s = head_it <$> runs
                     ∧ runs_ok (bucketCount s) runs;
  inv_ids : NoDup (allKeys s).*1;
  inv_fresh : Forall (λ x, (x.1 < nextNode s)%nat) (allKeys s);
  inv_keys : NoDup (keys s);
  inv_int : Forall is_int (keys s);
  inv_count : countElements s = Z.of_nat (length (allKeys s))
}.

End WithSizes.

(** ** The scenarios of the specification *)

(** The Sizing Table of the scenarios. *)
Definition sizes_7_17 : list Z := [7; 17].

(** A table with a third entry. *)
Definition sizes_7_17_37 : list Z := [7; 17; 37].

(** The container the default constructor makes with seven buckets. *)
Definition fresh_7 : HashSet :=
  mkHashSet [] (replicate 7 End) 0 (float_of 1) 0 0.

(** [fresh_7] after the inserts of [8; 1; -5; 15; 3; -7; 22]. *)
Definition seven_keys : HashSet :=
  Eval vm_compute in
    default fresh_7 (insert_all sizes_7_17 fresh_7 [8; 1; -5; 15; 3; -7; 22]).


(** [seven_keys] after the insert of [9]. *)
Definition seven_keys_and_9 : HashSet :=
  Eval vm_compute in default fresh_7 (insert sizes_7_17 seven_keys 9).

(** * Proofs *)

Section Proofs.

Variable sizes : list Z.

Local Abbreviation rehash := (rehash sizes).
Local Abbreviation HashSet_new := (HashSet_new sizes).
Local Abbreviation grows := (grows sizes).
Local Abbreviation insert := (insert sizes).
Local Abbreviation set_maxLoadFactor := (set_maxLoadFactor sizes).
Local Abbreviation reachable := (reachable sizes).
Local Abbreviation insert_all := (insert_all sizes).
Local Abbreviation Inv := (Inv sizes).
Local Abbreviation inv_fits := (inv_fits sizes).
Local Abbreviation inv_index := (inv_index sizes).
Local Abbreviation inv_int := (inv_int sizes).


(** ** Machine arithmetic *)

Lemma to_size_t_small (z : Z) : 0 <= z < 2 ^ 64 → to_size_t z = z.
Proof. intros. unfold to_size_t. apply Z.mod_small. lia. Qed.

Lemma to_int_small (z : Z) : - 2 ^ 31 <= z < 2 ^ 31 → to_int z = z.
Proof. intros. unfold to_int. rewrite Z.mod_small; lia. Qed.

Lemma to_size_t_neg (z : Z) : - 2 ^ 64 <= z < 0 → to_size_t z = z + 2 ^ 64.
Proof.
  intros. unfold to_size_t. symmetry.
  apply (Z.mod_unique_pos z (2 ^ 64) (-1)); lia.
Qed.

(** With a bucket count that [int] can take, [bucket] is the mathematical
    remainder. *)
Lemma bucket_of_small (c key : Z) :
  0 < c < 2 ^ 31 → is_int key → bucket_of c key = Some (key mod c).
Proof.
  intros Hc Hk. unfold bucket_of, is_int in *.
  rewrite (to_int_small c) by lia.
  destruct (decide (c = 0)) as [|_]; [lia|].
  destruct (decide (key = - 2 ^ 31 ∧ c = -1)) as [[_ ?]|_]; [lia|].
  pose proof (Z.quot_rem' key c) as Hqr.
  assert (Z.abs (Z.rem key c) < Z.abs c) as Hab
    by (apply Z.rem_bound_abs; lia).
  destruct (decide (Z.rem key c < 0)) as [Hneg|Hpos].
  - rewrite (to_size_t_neg (Z.rem key c)) by lia.
    assert (to_size_t (Z.rem key c + 2 ^ 64 + c) = Z.rem key c + c) as ->.
    { unfold to_size_t. symmetry.
      apply (Z.mod_unique_pos _ (2 ^ 64) 1); lia. }
    rewrite to_int_small by lia. rewrite to_size_t_small by lia.
    f_equal. apply (Z.mod_unique_pos key c (Z.quot key c - 1)); lia.
  - rewrite to_size_t_small by lia.
    f_equal. apply (Z.mod_unique_pos key c (Z.quot key c)); lia.
Qed.

Lemma bucket_of_2_31 (key : Z) :
  is_int key → bucket_of (2 ^ 31) key = Some (key mod 2 ^ 31).
Proof.
  intros Hk. unfold bucket_of, is_int in *.
  assert (to_int (2 ^ 31) = - 2 ^ 31) as -> by reflexivity.
  destruct (decide (- 2 ^ 31 = 0)) as [|_]; [lia|].
  destruct (decide (key = - 2 ^ 31 ∧ - 2 ^ 31 = -1)) as [[_ ?]|_]; [lia|].
  rewrite Z.rem_opp_r by lia.
  pose proof (Z.quot_rem' key (2 ^ 31)) as Hqr.
  assert (Z.abs (Z.rem key (2 ^ 31)) < Z.abs (2 ^ 31)) as Hab
    by (apply Z.rem_bound_abs; lia).
  destruct (decide (Z.rem key (2 ^ 31) < 0)) as [Hneg|Hpos].
  - rewrite (to_size_t_neg (Z.rem key (2 ^ 31))) by lia.
    assert (to_size_t (Z.rem key (2 ^ 31) + 2 ^ 64 + 2 ^ 31)
            = Z.rem key (2 ^ 31) + 2 ^ 31) as ->.
    { unfold to_size_t. symmetry.
      apply (Z.mod_unique_pos _ (2 ^ 64) 1); lia. }
    rewrite to_int_small by lia. rewrite to_size_t_small by lia.
    f_equal.
    apply (Z.mod_unique_pos key (2 ^ 31) (Z.quot key (2 ^ 31) - 1)); lia.
  - rewrite to_size_t_small by lia.
    f_equal. apply (Z.mod_unique_pos key (2 ^ 31) (Z.quot key (2 ^ 31))); lia.
Qed.

Lemma bucket_of_ok (c key : Z) :
  0 < c <= 2 ^ 31 → is_int key → bucket_of c key = Some (key mod c).
Proof.
  intros Hc Hk. destruct (decide (c = 2 ^ 31)) as [->|].
  - by apply bucket_of_2_31.
  - apply bucket_of_small; [lia|done].
Qed.

(** ** Iterators into a list whose nodes have identities of their own *)

Section Iterators.

Implicit Types (l r : list Node) (x : Node) (n : nat).

Lemma seek_app n k l r :
  n ∉ l.*1 → seek n (l ++ (n, k) :: r) = Some ((n, k) :: r).
Proof.
  induction l as [|y l IH]; simpl; intros Hn.
  - by rewrite decide_True.
  - apply not_elem_of_cons in Hn as [? ?].
    rewrite decide_False by done. auto.
Qed.

Lemma seek_Some n l rest :
  seek n l = Some rest →
  ∃ l1 k r, l = l1 ++ (n, k) :: r ∧ rest = (n, k) :: r ∧ n ∉ l1.*1.
Proof.
  induction l as [|[m k] l IH]; simpl; [done|].
  destruct (decide (m = n)) as [->|Hne]; intros Hs.
  - injection Hs as <-. exists [], k, l. split_and!; [done..|].
    simpl. apply not_elem_of_nil.
  - destruct (IH Hs) as (l1 & k' & r & -> & -> & Hn).
    exists ((m, k) :: l1), k', r. split_and!; [done..|].
    simpl. apply not_elem_of_cons. split; [congruence|done].
Qed.

Lemma NoDup_ids_head l x r : NoDup (l ++ x :: r).*1 → x.1 ∉ l.*1.
Proof.
  rewrite fmap_app, fmap_cons. intros Hnd Hin.
  apply NoDup_app in Hnd as (_ & Hd & _).
  apply (Hd _ Hin). left.
Qed.

Lemma from_head_it l r : NoDup (l ++ r).*1 → from (l ++ r) (head_it r) = Some r.
Proof.
  destruct r as [|[n k] r]; simpl; [done|].
  intros Hnd. apply seek_app. by apply (NoDup_ids_head l (n, k) r).
Qed.

Lemma insert_before_head_it x l r :
  NoDup (l ++ r).*1 → insert_before (head_it r) x (l ++ r) = Some (l ++ x :: r).
Proof.
  induction l as [|y l IH]; simpl; intros Hnd.
  - destruct r as [|z r]; simpl; [done|]. by rewrite decide_True.
  - apply NoDup_cons in Hnd as [Hy Hnd].
    rewrite decide_False.
    + by rewrite (IH Hnd).
    + destruct r as [|z r]; simpl; [done|].
      intros [= Hz]. apply Hy. rewrite fmap_app, fmap_cons, <- Hz.
      apply elem_of_app. right. left.
Qed.

Lemma erase_node_app x l r :
  NoDup (l ++ x :: r).*1 → erase_node x.1 (l ++ x :: r) = l ++ r.
Proof.
  induction l as [|y l IH]; simpl; intros Hnd.
  - by rewrite decide_True.
  - apply NoDup_cons in Hnd as [Hy Hnd].
    rewrite decide_False.
    + by rewrite (IH Hnd).
    + intros Heq. apply Hy. rewrite fmap_app, fmap_cons, Heq.
      apply elem_of_app. right. left.
Qed.

Lemma steps_to_nonneg last rest d : steps_to last rest = Some d → 0 <= d.
Proof.
  revert d. induction rest as [|x rest IH]; simpl; intros d.
  - destruct last; [done|]. intros [= <-]. lia.
  - destruct (decide (last = At x.1)); [intros [= <-]; lia|].
    destruct (steps_to last rest) as [d'|]; simpl; [|done].
    intros [= <-]. specialize (IH d' eq_refl). lia.
Qed.

Lemma steps_to_app x l r : is_Some (steps_to (At x.1) (l ++ x :: r)).
Proof.
  induction l as [|y l [d Hd]]; simpl.
  - rewrite decide_True by done. by eexists.
  - destruct (decide (At x.1 = At y.1)); [by eexists|].
    rewrite Hd. by eexists.
Qed.

End Iterators.

(** ** The loops over a run *)

Section Runs.

Variable c : Z.
Hypothesis c_fits : 0 < c <= 2 ^ 31.

Implicit Types (run post : list Node) (b key : Z).

Lemma contains_loop_run b key run post :
  Forall is_int (run ++ post).*2 →
  Forall (in_bucket c b) run →
  Forall (λ x, ¬ in_bucket c b x) post →
  contains_loop c b key (run ++ post) = Some (bool_decide (key ∈ run.*2)).
Proof.
  intros Hint Hrun Hpost.
  induction run as [|x run IH]; simpl in *.
  - destruct post as [|y post]; simpl; [done|].
    apply Forall_cons in Hint as [Hy _]. apply Forall_cons in Hpost as [Hb _].
    rewrite (bucket_of_ok c _ c_fits Hy). simpl.
    by rewrite decide_False.
  - apply Forall_cons in Hint as [Hx Hint]. apply Forall_cons in Hrun as [Hb Hrun].
    rewrite (bucket_of_ok c _ c_fits Hx). simpl.
    rewrite decide_True by done.
    destruct (decide (x.2 = key)) as [<-|Hne].
    + rewrite bool_decide_eq_true_2; [done|left].
    + rewrite (IH Hint Hrun). f_equal. apply bool_decide_ext.
      rewrite elem_of_cons. intuition congruence.
Qed.

Lemma find_loop_miss b key run post :
  Forall is_int (run ++ post).*2 →
  Forall (in_bucket c b) run →
  Forall (λ x, ¬ in_bucket c b x) post →
  key ∉ run.*2 →
  find_loop c b key (run ++ post) = Some End.
Proof.
  intros Hint Hrun Hpost.
  induction run as [|x run IH]; simpl in *; intros Hkey.
  - destruct post as [|y post]; simpl; [done|].
    apply Forall_cons in Hint as [Hy _]. apply Forall_cons in Hpost as [Hb _].
    rewrite (bucket_of_ok c _ c_fits Hy). simpl.
    by rewrite decide_False.
  - apply Forall_cons in Hint as [Hx Hint]. apply Forall_cons in Hrun as [Hb Hrun].
    apply not_elem_of_cons in Hkey as [Hne Hkey].
    rewrite (bucket_of_ok c _ c_fits Hx). simpl.
    rewrite decide_True by done. rewrite decide_False by done. auto.
Qed.

Lemma find_loop_hit b n key r1 r2 post :
  Forall is_int (r1 ++ (n, key) :: r2).*2 →
  Forall (in_bucket c b) (r1 ++ (n, key) :: r2) →
  key ∉ r1.*2 →
  find_loop c b key ((r1 ++ (n, key) :: r2) ++ post) = Some (At n).
Proof.
  induction r1 as [|x r1 IH]; simpl; intros Hint Hrun Hkey.
  - apply Forall_cons in Hint as [Hx _]. apply Forall_cons in Hrun as [Hb _].
    rewrite (bucket_of_ok c _ c_fits Hx). simpl.
    rewrite decide_True by done. by rewrite decide_True.
  - apply Forall_cons in Hint as [Hx Hint]. apply Forall_cons in Hrun as [Hb Hrun].
    apply not_elem_of_cons in Hkey as [Hne Hkey].
    rewrite (bucket_of_ok c _ c_fits Hx). simpl.
    rewrite decide_True by done. rewrite decide_False by done. auto.
Qed.

Lemma skip_run_run b run post :
  Forall is_int (run ++ post).*2 →
  Forall (in_bucket c b) run →
  Forall (λ x, ¬ in_bucket c b x) post →
  skip_run c b (run ++ post) = Some (head_it post).
Proof.
  intros Hint Hrun Hpost.
  induction run as [|x run IH]; simpl in *.
  - destruct post as [|y post]; simpl; [done|].
    apply Forall_cons in Hint as [Hy _]. apply Forall_cons in Hpost as [Hb _].
    rewrite (bucket_of_ok c _ c_fits Hy). simpl.
    by rewrite decide_False.
  - apply Forall_cons in Hint as [Hx Hint]. apply Forall_cons in Hrun as [Hb Hrun].
    rewrite (bucket_of_ok c _ c_fits Hx). simpl.
    rewrite decide_True by done. auto.
Qed.

End Runs.

(** ** The runs of the buckets *)

Section Focus.

Variable c : Z.

Implicit Types (runs : list (list Node)) (run : list Node) (b : nat).

Lemma concat_split runs b run :
  runs !! b = Some run →
  concat runs = concat (take b runs) ++ run ++ concat (drop (S b) runs).
Proof.
  intros Hb. rewrite <- (take_drop_middle runs b run Hb) at 1.
  by rewrite concat_app, concat_cons.
Qed.

Lemma runs_before runs b :
  runs_ok c runs →
  Forall (λ x, x.2 mod c < Z.of_nat b) (concat (take b runs)).
Proof.
  intros Hok. apply Forall_concat, Forall_lookup. intros i run Hi.
  apply lookup_take_Some in Hi as [Hi Hlt].
  eapply Forall_impl; [by apply (Hok i)|].
  unfold in_bucket. intros x ->. lia.
Qed.

Lemma runs_after runs b :
  runs_ok c runs →
  Forall (λ x, Z.of_nat b < x.2 mod c) (concat (drop (S b) runs)).
Proof.
  intros Hok. apply Forall_concat, Forall_lookup. intros i run Hi.
  rewrite lookup_drop in Hi.
  eapply Forall_impl; [by apply (Hok (S b + i)%nat)|].
  unfold in_bucket. intros x ->. lia.
Qed.

Lemma runs_ok_insert runs b run :
  runs_ok c runs → Forall (in_bucket c (Z.of_nat b)) run →
  runs_ok c (<[b := run]> runs).
Proof.
  intros Hok Hrun i run' Hi.
  apply list_lookup_insert_Some in Hi as [(-> & -> & _)|[_ Hi]]; [done|].
  by apply Hok.
Qed.

Lemma concat_insert runs b run :
  (b < length runs)%nat →
  concat (<[b := run]> runs)
  = concat (take b runs) ++ run ++ concat (drop (S b) runs).
Proof.
  intros Hb. rewrite insert_take_drop by done.
  by rewrite concat_app, concat_cons.
Qed.

(** Iteration meets the buckets in ascending order. *)
Lemma runs_sorted runs :
  runs_ok c runs →
  StronglySorted (λ x y : Node, x.2 mod c <= y.2 mod c) (concat runs).
Proof.
  induction runs as [|run runs IH] using rev_ind; intros Hok.
  - constructor.
  - rewrite concat_app. simpl. rewrite app_nil_r.
    assert (Forall (in_bucket c (Z.of_nat (length runs))) run) as Hrun.
    { apply (Hok (length runs)). by rewrite lookup_app_r, Nat.sub_diag. }
    assert (runs_ok c runs) as Hok'.
    { intros i r Hi. apply Hok. by apply lookup_app_l_Some. }
    apply StronglySorted_app. split_and!.
    + intros x y Hx Hy.
      pose proof (runs_before (runs ++ [run]) (length runs) Hok) as Hlt.
      rewrite take_app_length in Hlt.
      rewrite Forall_forall in Hlt, Hrun.
      specialize (Hlt x Hx). specialize (Hrun y Hy).
      unfold in_bucket in Hrun. lia.
    + by apply IH.
    + clear -Hrun. induction Hrun as [|x r Hx Hr IHr]; [constructor|].
      constructor; [done|].
      eapply Forall_impl; [exact Hr|]. unfold in_bucket in *.
      intros y Hy. lia.
Qed.

End Focus.

(** ** Lookup under the invariant *)

Lemma from_run (P run Q : list Node) :
  NoDup (P ++ run ++ Q).*1 →
  from (P ++ run ++ Q) (head_it run)
  = Some (match run with [] => [] | _ => run ++ Q end).
Proof.
  destruct run as [|x run]; [done|]. intros Hnd.
  by rewrite <- (from_head_it P ((x :: run) ++ Q) Hnd).
Qed.

Lemma Inv_bucket s key :
  Inv s → is_int key → bucket s key = Some (key mod bucketCount s).
Proof. intros [] Hk. by apply bucket_of_ok. Qed.

(** What the invariant says at one bucket [b]: the list is the nodes [P] of
    the buckets before [b], the run of [b] and the nodes [Q] of the buckets
    after [b]. *)
Lemma Inv_focus s (b : Z) :
  Inv s → 0 <= b < bucketCount s →
  ∃ runs P run Q,
    runs_ok (bucketCount s) runs
    ∧ buckets s = head_it <$> runs
    ∧ runs !! Z.to_nat b = Some run
    ∧ P = concat (take (Z.to_nat b) runs)
    ∧ Q = concat (drop (S (Z.to_nat b)) runs)
    ∧ allKeys s = P ++ run ++ Q
    ∧ buckets s !! Z.to_nat b = Some (head_it run)
    ∧ Forall (in_bucket (bucketCount s) b) run
    ∧ Forall (λ x, ¬ in_bucket (bucketCount s) b x) P
    ∧ Forall (λ x, ¬ in_bucket (bucketCount s) b x) Q.
Proof.
  intros [_ _ _ (runs & Hall & Hbks & Hok) _ _ _ _ _] Hb.
  assert (length runs = length (buckets s)) as Hlen
    by (by rewrite Hbks, length_fmap).
  destruct (lookup_lt_is_Some_2 runs (Z.to_nat b)) as [run Hrun].
  { rewrite Hlen. unfold bucketCount in Hb. lia. }
  exists runs, (concat (take (Z.to_nat b) runs)), run,
    (concat (drop (S (Z.to_nat b)) runs)).
  split_and!; try done.
  - rewrite Hall. by apply concat_split.
  - by rewrite Hbks, list_lookup_fmap, Hrun.
  - specialize (Hok _ _ Hrun). by rewrite Z2Nat.id in Hok by lia.
  - eapply Forall_impl; [by apply runs_before|].
    unfold in_bucket. intros x Hx. simpl in Hx. lia.
  - eapply Forall_impl; [by apply runs_after|].
    unfold in_bucket. intros x Hx. simpl in Hx. lia.
Qed.

Lemma focus_elem (c b key : Z) (P run Q : list Node) :
  key mod c = b →
  Forall (λ x, ¬ in_bucket c b x) P →
  Forall (λ x, ¬ in_bucket c b x) Q →
  key ∈ (P ++ run ++ Q).*2 ↔ key ∈ run.*2.
Proof.
  intros Hb HP HQ. rewrite !fmap_app, !elem_of_app.
  assert (∀ l, Forall (λ x, ¬ in_bucket c b x) l → key ∉ l.*2) as Hnot.
  { intros l Hl Hin. apply list_elem_of_fmap in Hin as (x & -> & Hx).
    rewrite Forall_forall in Hl. by apply (Hl x Hx). }
  specialize (Hnot P HP) as HnP. specialize (Hnot Q HQ) as HnQ. tauto.
Qed.

Lemma mod_bucket s key :
  Inv s → 0 <= key mod bucketCount s < bucketCount s.
Proof. intros []. apply Z.mod_pos_bound. lia. Qed.

Lemma contains_spec s key :
  Inv s → is_int key →
  contains s key = Some (bool_decide (key ∈ keys s)).
Proof.
  intros HI Hk. pose proof (mod_bucket s key HI) as Hb.
  destruct (Inv_focus s _ HI Hb)
    as (runs & P & run & Q & _ & _ & _ & _ & _ & Hall & Hhb & Hrun & HP & HQ).
  destruct HI as [Hfits _ _ _ Hids _ _ Hint _].
  unfold contains. rewrite (bucket_of_ok _ _ Hfits Hk : bucket s key = _).
  simpl. rewrite Hhb. simpl. unfold keys in *. rewrite Hall in *.
  rewrite (from_run _ _ _ Hids). simpl.
  rewrite (bool_decide_ext _ _
             (focus_elem (bucketCount s) _ key P run Q eq_refl HP HQ)).
  destruct run as [|x run]; [done|].
  apply contains_loop_run; try done.
  rewrite !fmap_app, !Forall_app in Hint. rewrite fmap_app, Forall_app. tauto.
Qed.

Lemma find_miss s key :
  Inv s → is_int key → key ∉ keys s → find s key = Some End.
Proof.
  intros HI Hk. pose proof (mod_bucket s key HI) as Hb.
  destruct (Inv_focus s _ HI Hb)
    as (runs & P & run & Q & _ & _ & _ & _ & _ & Hall & Hhb & Hrun & HP & HQ).
  destruct HI as [Hfits _ _ _ Hids _ _ Hint _].
  unfold find. rewrite (bucket_of_ok _ _ Hfits Hk : bucket s key = _).
  simpl. rewrite Hhb. simpl. unfold keys in *. rewrite Hall in *.
  rewrite (from_run _ _ _ Hids). simpl.
  rewrite (focus_elem (bucketCount s) _ key P run Q eq_refl HP HQ).
  intros Hnot.
  destruct run as [|x run]; [done|].
  apply find_loop_miss; try done.
  rewrite !fmap_app, !Forall_app in Hint. rewrite fmap_app, Forall_app. tauto.
Qed.

Lemma find_hit s n key :
  Inv s → is_int key → (n, key) ∈ allKeys s → find s key = Some (At n).
Proof.
  intros HI Hk. pose proof (mod_bucket s key HI) as Hb.
  destruct (Inv_focus s _ HI Hb)
    as (runs & P & run & Q & _ & _ & _ & _ & _ & Hall & Hhb & Hrun & HP & HQ).
  destruct HI as [Hfits _ _ _ Hids _ Hkeys Hint _].
  unfold find. rewrite (bucket_of_ok _ _ Hfits Hk : bucket s key = _).
  simpl. rewrite Hhb. simpl. unfold keys in *. rewrite Hall in *.
  rewrite (from_run _ _ _ Hids). simpl. intros Hin.
  assert ((n, key) ∈ run) as Hr.
  { rewrite !elem_of_app in Hin. rewrite Forall_forall in HP, HQ.
    destruct Hin as [Hin|[Hin|Hin]]; [|done|].
    - by destruct (HP _ Hin).
    - by destruct (HQ _ Hin). }
  assert (Forall is_int run.*2 ∧ NoDup run.*2) as [Hint' Hkeys'].
  { rewrite !fmap_app, !Forall_app in Hint. rewrite !fmap_app in Hkeys.
    apply NoDup_app in Hkeys as (_ & _ & Hkeys).
    apply NoDup_app in Hkeys as (Hkeys & _ & _). tauto. }
  apply list_elem_of_split in Hr as (r1 & r2 & ->).
  assert (key ∉ r1.*2) as Hnot.
  { rewrite fmap_app, fmap_cons in Hkeys'.
    apply NoDup_app in Hkeys' as (_ & Hd & _).
    intros Hin'. apply (Hd _ Hin'). left. }
  assert (∀ l, match r1 ++ (n, key) :: r2 with [] => [] | _ => l end = l)
    as -> by (by destruct r1).
  by apply find_loop_hit.
Qed.

(** ** What is assumed of the Sizing Table *)

Hypothesis sizes_fit : table_fits sizes.

Hypothesis sizes_ascending : table_ascending sizes.

(** ** There are no more keys than [int] has values *)

Lemma int_keys_bound (l : list Z) :
  NoDup l → Forall is_int l → Z.of_nat (length l) <= 2 ^ 32.
Proof.
  intros Hnd Hint.
  set (f := λ k : Z, Z.to_nat (k + 2 ^ 31)).
  assert (NoDup (f <$> l)) as Hnd'.
  { apply NoDup_fmap_2_strong; [|done].
    intros x y Hx Hy Hxy. rewrite Forall_forall in Hint.
    pose proof (Hint x Hx). pose proof (Hint y Hy).
    unfold f, is_int in *. lia. }
  remember (Z.to_nat (2 ^ 32)) as N eqn:HN.
  assert (f <$> l ⊆+ seq 0 N) as Hsub.
  { apply NoDup_submseteq; [done|]. intros n Hn.
    apply list_elem_of_fmap in Hn as (k & -> & Hk).
    rewrite Forall_forall in Hint. pose proof (Hint k Hk).
    apply elem_of_seq. unfold f, is_int in *. lia. }
  apply submseteq_length in Hsub.
  rewrite length_fmap, length_seq in Hsub.
  assert (Z.of_nat N = 2 ^ 32) as HN' by (rewrite HN, Z2Nat.id; lia).
  clear HN. lia.
Qed.

Lemma Inv_count_bound s : Inv s → 0 <= countElements s <= 2 ^ 32.
Proof.
  intros [_ _ _ _ _ _ Hkeys Hint Hcount].
  pose proof (int_keys_bound _ Hkeys Hint) as Hle.
  unfold keys in Hle. rewrite length_fmap in Hle. lia.
Qed.

(** ** The constructor *)

Lemma runs_ok_replicate c n : runs_ok c (replicate n []).
Proof.
  intros b run Hb. apply lookup_replicate in Hb as [-> _]. constructor.
Qed.

Lemma concat_replicate_nil {A} n : concat (replicate n (@nil A)) = [].
Proof. induction n; simpl; [done|]. done. Qed.

Lemma new_Inv s : HashSet_new = Some s → Inv s.
Proof.
  unfold HashSet_new. destruct (sizes !! 0%nat) as [n|] eqn:Hn; [|done].
  simpl. intros [= <-].
  assert (0 < n <= 2 ^ 31) as Hfit.
  { pose proof sizes_fit as Hfit'. unfold table_fits in Hfit'.
    rewrite Forall_forall in Hfit'. apply Hfit'.
    by eapply list_elem_of_lookup_2. }
  constructor; unfold bucketCount; simpl;
    rewrite ?length_replicate, ?Z2Nat.id by lia.
  - done.
  - by eapply list_elem_of_lookup_2.
  - apply lookup_lt_Some in Hn. lia.
  - exists (replicate (Z.to_nat n) []). split_and!.
    + by rewrite concat_replicate_nil.
    + by rewrite fmap_replicate.
    + apply runs_ok_replicate.
  - constructor.
  - constructor.
  - constructor.
  - constructor.
  - done.
Qed.

(** ** Rehashing *)

Lemma pick_size_Some newSize l i m j :
  pick_size newSize l i = Some (m, j) →
  ∃ k : nat, j = i + Z.of_nat k ∧ l !! k = Some m ∧ newSize <= m
    ∧ ∀ (k' : nat) m', (k' < k)%nat → l !! k' = Some m' → m' < newSize.
Proof.
  revert i. induction l as [|n l IH]; simpl; intros i; [done|].
  destruct (decide (n >= newSize)) as [Hge|Hlt].
  - intros [= -> <-]. exists 0%nat. split_and!; [lia|done|lia|]. lia.
  - intros Hp. destruct (IH _ Hp) as (k & -> & Hk & Hle & Hmin).
    exists (S k). split_and!; [lia|done|done|].
    intros [|k'] m' Hk'; simpl; [intros [= <-]; lia|].
    apply Hmin. lia.
Qed.

Lemma pick_size_None newSize l i :
  pick_size newSize l i = None → Forall (λ m, m < newSize) l.
Proof.
  revert i. induction l as [|n l IH]; simpl; intros i; [constructor|].
  destruct (decide (n >= newSize)) as [Hge|Hlt]; [done|].
  intros Hp. constructor; [lia|]. by eapply IH.
Qed.

Lemma distribute_spec c ks temp next :
  0 < c <= 2 ^ 31 →
  length temp = Z.to_nat c → runs_ok c temp → Forall is_int ks →
  ∃ temp',
    distribute c ks temp next = Some (temp', (next + length ks)%nat)
    ∧ length temp' = Z.to_nat c ∧ runs_ok c temp'
    ∧ concat temp' ≡ₚ concat temp ++ zip (seq next (length ks)) ks.
Proof.
  intros Hc. revert temp next.
  induction ks as [|key ks IH]; simpl; intros temp next Hlen Hok Hint.
  - exists temp. rewrite Nat.add_0_r, app_nil_r. done.
  - apply Forall_cons in Hint as [Hk Hint].
    rewrite (bucket_of_ok c key Hc Hk). simpl.
    pose proof (Z.mod_pos_bound key c ltac:(lia)) as Hb.
    destruct (lookup_lt_is_Some_2 temp (Z.to_nat (key mod c))) as [run Hrun];
      [lia|].
    rewrite Hrun. simpl.
    destruct (IH (<[Z.to_nat (key mod c) := run ++ [(next, key)]]> temp)
                (S next)) as (temp' & Hd & Hlen' & Hok' & Hperm).
    + by rewrite length_insert.
    + apply runs_ok_insert; [done|]. apply Forall_app. split.
      * by apply Hok.
      * constructor; [|constructor]. unfold in_bucket. simpl. lia.
    + done.
    + exists temp'. rewrite Hd. split_and!; [f_equal; f_equal; lia|done..|].
      rewrite Hperm.
      rewrite concat_insert by (apply lookup_lt_Some in Hrun; lia).
      rewrite (concat_split temp _ run Hrun).
      rewrite <- !(assoc_L (++)). simpl.
      apply Permutation_app_head. apply Permutation_app_head.
      by rewrite <- Permutation_middle.
Qed.

Lemma reassemble_spec temp pre all cnt :
  0 <= cnt → cnt + Z.of_nat (length (concat temp)) < 2 ^ 64 →
  reassemble temp (length pre)
    (all, pre ++ replicate (length temp) End, cnt)
  = (all ++ concat temp, pre ++ (head_it <$> temp),
     cnt + Z.of_nat (length (concat temp))).
Proof.
  revert pre all cnt.
  induction temp as [|run temp IH]; simpl; intros pre all cnt Hcnt Hlt.
  - rewrite !app_nil_r. f_equal. lia.
  - rewrite length_app in Hlt.
    destruct run as [|x run]; simpl in *.
    + specialize (IH (pre ++ [End]) all cnt Hcnt Hlt).
      rewrite length_app in IH. simpl in IH.
      rewrite Nat.add_1_r, <- !(assoc_L (++)) in IH. done.
    + replace (<[length pre:=At x.1]> (pre ++ End :: replicate (length temp) End))
        with ((pre ++ [At x.1]) ++ replicate (length temp) End).
      2:{ rewrite insert_app_r_alt, Nat.sub_diag by lia.
          by rewrite <- (assoc_L (++)). }
      rewrite to_size_t_small by lia.
      specialize (IH (pre ++ [At x.1]) (all ++ x :: run)
                    (cnt + Z.of_nat (S (length run)))).
      rewrite length_app in IH. simpl in IH. rewrite Nat.add_1_r in IH.
      rewrite IH by lia.
      rewrite <- !(assoc_L (++)). simpl. rewrite length_app. f_equal. lia.
Qed.

Lemma zip_seq_fst (ks : list Z) next :
  (zip (seq next (length ks)) ks).*1 = seq next (length ks).
Proof. apply fst_zip. by rewrite length_seq. Qed.

Lemma zip_seq_snd (ks : list Z) next :
  (zip (seq next (length ks)) ks).*2 = ks.
Proof. apply snd_zip. by rewrite length_seq. Qed.

Lemma sizes_elem_fit n : n ∈ sizes → 0 < n <= 2 ^ 31.
Proof.
  intros Hn. pose proof sizes_fit as Hfit'. unfold table_fits in Hfit'.
  rewrite Forall_forall in Hfit'. by apply Hfit'.
Qed.

(** [rehash] returns, keeps the invariant, the keys, the count and the
    maximum load factor, and leaves the bucket count and the index that its
    first loop picks. *)
Lemma rehash_spec s newSize :
  Inv s →
  ∃ s', rehash s newSize = Some s' ∧ Inv s'
    ∧ keys s' ≡ₚ keys s
    ∧ countElements s' = countElements s
    ∧ maxLFactor s' = maxLFactor s
    ∧ match pick_size newSize sizes 0 with
      | Some (m, i) => bucketCount s' = m ∧ currentPrimeIndex s' = i
      | None => last sizes = Some (bucketCount s')
                ∧ currentPrimeIndex s' = currentPrimeIndex s
      end.
Proof.
  intros HI. pose proof (Inv_count_bound s HI) as Hbound.
  destruct HI as [_ _ Hidx _ _ _ Hkeys Hint Hcount].
  unfold rehash.
  destruct (last sizes) as [back|] eqn:Hback.
  2:{ apply last_None in Hback. rewrite Hback in Hidx. simpl in Hidx. lia. }
  simpl.
  set (choice := default (back, currentPrimeIndex s)
                   (pick_size newSize sizes 0)).
  assert (choice.1 ∈ sizes
          ∧ 0 <= choice.2 < Z.of_nat (length sizes)
          ∧ match pick_size newSize sizes 0 with
            | Some (m, i) => choice.1 = m ∧ choice.2 = i
            | None => last sizes = Some choice.1
                      ∧ choice.2 = currentPrimeIndex s
            end) as (Hin & Hidx' & Hchoice).
  { unfold choice. destruct (pick_size newSize sizes 0) as [[m i]|] eqn:Hp.
    - simpl. apply pick_size_Some in Hp as (k & -> & Hk & _).
      split_and!; try done.
      + by eapply list_elem_of_lookup_2.
      + lia.
      + apply lookup_lt_Some in Hk. lia.
    - simpl. split_and!; try done; try lia.
      by apply last_Some_elem_of. }
  destruct choice as [newBCount newPrimeIndex]. simpl in *.
  pose proof (sizes_elem_fit _ Hin) as Hfit.
  destruct (distribute_spec newBCount (keys s)
              (replicate (Z.to_nat newBCount) []) (nextNode s) Hfit)
    as (temp & Hd & Hlen & Hok & Hperm).
  { by rewrite length_replicate. }
  { apply runs_ok_replicate. }
  { done. }
  rewrite concat_replicate_nil in Hperm. simpl in Hperm.
  rewrite Hd. simpl.
  assert (length (concat temp) = length (allKeys s)) as Hlenc.
  { rewrite Hperm, length_zip, length_seq. unfold keys.
    rewrite length_fmap. lia. }
  pose proof (reassemble_spec temp [] [] 0) as Hre. simpl in Hre.
  rewrite Hlen in Hre. rewrite Hre by lia. clear Hre.
  eexists. split; [done|]. split; [|split; [|split; [|split]]]; simpl.
  - constructor; unfold bucketCount; simpl;
      rewrite ?length_fmap, ?Hlen, ?Z2Nat.id by lia; try done.
    + by exists temp.
    + rewrite Hperm, zip_seq_fst. apply NoDup_seq.
    + rewrite Hperm. apply Forall_fmap with (f := fst) (P := λ n, (n < _)%nat).
      rewrite zip_seq_fst. apply Forall_seq. lia.
    + unfold keys. simpl. by rewrite Hperm, zip_seq_snd.
    + unfold keys. simpl. by rewrite Hperm, zip_seq_snd.
  - unfold keys. simpl. by rewrite Hperm, zip_seq_snd.
  - lia.
  - done.
  - unfold bucketCount. simpl. rewrite length_fmap, Hlen, Z2Nat.id by lia.
    by rewrite Hback in Hchoice.
Qed.

(** ** Insertion *)

(** The search for the next bucket that is not empty ends at the head of
    what the later buckets hold. *)
Lemma skip_empty_spec (rs : list (list Node)) (i : Z) :
  i <= skip_empty (head_it <$> rs) i <= i + Z.of_nat (length rs)
  ∧ (skip_empty (head_it <$> rs) i < i + Z.of_nat (length rs) →
     (head_it <$> rs) !! Z.to_nat (skip_empty (head_it <$> rs) i - i)
     = Some (head_it (concat rs)))
  ∧ (skip_empty (head_it <$> rs) i = i + Z.of_nat (length rs) →
     concat rs = []).
Proof.
  revert i. induction rs as [|r rs IH]; intros i.
  - simpl. split_and!; [lia|lia|lia|done].
  - destruct r as [|x r].
    + change (skip_empty (head_it <$> [] :: rs) i)
        with (skip_empty (head_it <$> rs) (i + 1)).
      destruct (IH (i + 1)) as ((Hlo & Hhi) & Hin & Hout).
      change (length ([] :: rs)) with (S (length rs)).
      split_and!; [lia|lia| |].
      * intros Hlt.
        replace (Z.to_nat (skip_empty (head_it <$> rs) (i + 1) - i))
          with (S (Z.to_nat (skip_empty (head_it <$> rs) (i + 1) - (i + 1))))
          by lia.
        simpl. apply Hin. lia.
      * intros Heq. simpl. apply Hout. lia.
    + change (skip_empty (head_it <$> (x :: r) :: rs) i) with i.
      change (length ((x :: r) :: rs)) with (S (length rs)).
      split_and!; [lia|lia| |lia].
      intros _. by rewrite Z.sub_diag.
Qed.

(** The second half of [insert] on a key that is not in the set: it
    returns, and the key has a node of its own at the end of its bucket's
    run. *)
Lemma place_spec s key :
  Inv s → is_int key → key ∉ keys s →
  ∃ s', place s key = Some s' ∧ Inv s'
    ∧ keys s' ≡ₚ key :: keys s
    ∧ countElements s' = countElements s + 1
    ∧ bucketCount s' = bucketCount s
    ∧ currentPrimeIndex s' = currentPrimeIndex s
    ∧ maxLFactor s' = maxLFactor s.
Proof.
  intros HI Hk Hnew. pose proof (mod_bucket s key HI) as Hb.
  pose proof (Inv_count_bound s HI) as Hbound.
  destruct (Inv_focus s _ HI Hb)
    as (runs & P & run & Q & Hok & Hbks & Hrun & HPeq & HQeq & Hall & Hhb
        & Hinb & HP & HQ).
  destruct HI as [Hfits Htable Hidx _ Hids Hfresh Hkeys Hint Hcount].
  set (b := key mod bucketCount s) in *.
  set (new := (nextNode s, key)).
  assert (length runs = length (buckets s)) as Hlen
    by (by rewrite Hbks, length_fmap).
  assert (Forall is_int (P ++ run ++ Q).*2) as Hint'
    by (by rewrite <- Hall).
  (* the position of the new node *)
  assert ((if decide (head_it run ≠ End)
           then rest ← from (allKeys s) (head_it run);
                skip_run (bucketCount s) b rest
           else
             let first := to_size_t (b + 1) in
             let nextBucket :=
               skip_empty (drop (Z.to_nat first) (buckets s)) first in
             if decide (nextBucket < bucketCount s)
             then buckets s !! Z.to_nat nextBucket
             else Some End) = Some (head_it Q)) as Hpos.
  { destruct run as [|x r].
    - rewrite decide_False by (simpl; auto). simpl.
      rewrite to_size_t_small by lia.
      replace (Z.to_nat (b + 1)) with (S (Z.to_nat b)) by lia.
      rewrite Hbks, <- fmap_drop.
      destruct (skip_empty_spec (drop (S (Z.to_nat b)) runs) (b + 1))
        as ((Hlo & Hhi) & Hin & Hout).
      rewrite length_drop, Hlen in Hhi, Hin, Hout.
      unfold bucketCount in *.
      destruct (decide (skip_empty (head_it <$> drop (S (Z.to_nat b)) runs)
                          (b + 1) < Z.of_nat (length (buckets s))))
        as [Hlt|Hge].
      + specialize (Hin ltac:(lia)).
        rewrite fmap_drop, lookup_drop, <- HQeq in Hin.
        rewrite <- Hin, <- fmap_drop. f_equal. lia.
      + rewrite HQeq, Hout by lia. done.
    - rewrite decide_True by done. rewrite Hall.
      rewrite (from_run P (x :: r) Q) by (by rewrite <- Hall). simpl.
      rewrite !fmap_app, !Forall_app in Hint'.
      apply (skip_run_run _ Hfits b (x :: r) Q); [|done..].
      rewrite fmap_app, Forall_app. tauto. }
  unfold place. rewrite (bucket_of_ok _ _ Hfits Hk : bucket s key = _).
  simpl. fold b. rewrite Hhb. simpl. cbv zeta in Hpos. rewrite Hpos. simpl.
  fold new.
  assert (insert_before (head_it Q) new (allKeys s)
          = Some (P ++ (run ++ [new]) ++ Q)) as ->.
  { rewrite Hall, (assoc_L (++)).
    rewrite insert_before_head_it by (by rewrite <- (assoc_L (++)), <- Hall).
    by rewrite <- !(assoc_L (++)). }
  simpl.
  assert (P ++ (run ++ [new]) ++ Q ≡ₚ new :: allKeys s) as Hperm.
  { rewrite Hall, <- !(assoc_L (++)). simpl.
    by rewrite <- !Permutation_middle. }
  assert (NoDup (P ++ (run ++ [new]) ++ Q).*1) as Hids'.
  { rewrite Hperm, fmap_cons. apply NoDup_cons. split; [|done].
    simpl. intros Hin. apply list_elem_of_fmap in Hin as (y & Hy & Hin).
    rewrite Forall_forall in Hfresh. specialize (Hfresh y Hin). lia. }
  (* the bucket table *)
  assert (∃ upd,
    (if decide (head_it run = End) then Some true
     else d ← distance (P ++ (run ++ [new]) ++ Q) (head_it run)
                (At (nextNode s));
          Some (bool_decide (d < 0))) = Some upd
    ∧ (if upd : bool then <[Z.to_nat b := At (nextNode s)]> (buckets s)
       else buckets s)
      = head_it <$> <[Z.to_nat b := run ++ [new]]> runs) as (upd & -> & Hbks').
  { destruct run as [|x r].
    - exists true. rewrite decide_True by done. split; [done|].
      by rewrite list_fmap_insert, Hbks.
    - rewrite decide_False by done.
      destruct (steps_to_app new (x :: r) Q) as [d Hd].
      assert (distance (P ++ ((x :: r) ++ [new]) ++ Q) (head_it (x :: r))
                (At (nextNode s)) = Some d) as ->.
      { unfold distance.
        rewrite <- (assoc_L (++) (x :: r) [new] Q).
        rewrite (from_run P (x :: r) ([new] ++ Q))
          by (by rewrite (assoc_L (++) (x :: r) [new] Q)).
        exact Hd. }
      simpl.
      exists (bool_decide (d < 0)). split; [done|].
      apply steps_to_nonneg in Hd.
      rewrite bool_decide_eq_false_2 by lia.
      rewrite list_fmap_insert, <- Hbks. simpl.
      rewrite list_insert_id; [done|]. by rewrite Hhb. }
  simpl. rewrite Hbks'. eexists. split; [done|].
  assert (Z.to_nat b < length runs)%nat as Hblt
    by (by apply lookup_lt_Some in Hrun).
  assert (length (head_it <$> <[Z.to_nat b := run ++ [new]]> runs)
          = length (buckets s)) as Hlen'
    by (by rewrite length_fmap, length_insert).
  split; [|split; [|split; [|split; [|split]]]]; simpl.
  - constructor; unfold bucketCount, keys in *; simpl; rewrite ?Hlen';
      try done.
    + eexists. split_and!; [|done|].
      * by rewrite concat_insert, <- HPeq, <- HQeq.
      * apply runs_ok_insert; [done|]. rewrite Z2Nat.id by lia.
        apply Forall_app. split; [done|].
        constructor; [|constructor]. done.
    + rewrite Hperm. constructor; [simpl; lia|].
      eapply Forall_impl; [exact Hfresh|]. simpl. lia.
    + rewrite Hperm, fmap_cons. by apply NoDup_cons.
    + rewrite Hperm, fmap_cons. by constructor.
    + rewrite Hperm. simpl. rewrite to_size_t_small by lia. lia.
  - unfold keys. simpl. by rewrite Hperm.
  - rewrite to_size_t_small by lia. done.
  - unfold bucketCount. simpl. by rewrite Hlen'.
  - done.
  - done.
Qed.

(** In an ascending table an entry is the first one that is not below
    itself. *)
Lemma pick_size_entry (k : nat) n :
  sizes !! k = Some n → pick_size n sizes 0 = Some (n, Z.of_nat k).
Proof.
  intros Hk. destruct (pick_size n sizes 0) as [[m j]|] eqn:Hp.
  - apply pick_size_Some in Hp as (k' & -> & Hk' & Hle & Hmin).
    destruct (Nat.lt_trichotomy k' k) as [Hlt|[->|Hgt]].
    + pose proof (sizes_ascending _ _ _ _ Hk' Hk Hlt). lia.
    + rewrite Hk in Hk'. injection Hk' as ->. done.
    + pose proof (Hmin _ _ Hgt Hk). lia.
  - apply pick_size_None in Hp. rewrite Forall_forall in Hp.
    pose proof (Hp n (list_elem_of_lookup_2 _ _ _ Hk)). lia.
Qed.

(** An ascending table of such bucket counts is short. *)
Lemma sizes_entry_above (i : nat) a : sizes !! i = Some a → Z.of_nat i < a.
Proof.
  revert a. induction i as [|i IH]; intros a Hi.
  - pose proof (sizes_elem_fit a (list_elem_of_lookup_2 _ _ _ Hi)). lia.
  - destruct (lookup_lt_is_Some_2 sizes i) as [a' Hi'].
    { apply lookup_lt_Some in Hi. lia. }
    pose proof (IH a' Hi').
    pose proof (sizes_ascending i (S i) a' a Hi' Hi ltac:(lia)). lia.
Qed.

Lemma sizes_length_bound : Z.of_nat (length sizes) <= 2 ^ 31.
Proof.
  destruct (decide (length sizes = 0%nat)) as [->|Hne]; [simpl; lia|].
  destruct (lookup_lt_is_Some_2 sizes (pred (length sizes))) as [a Ha]; [lia|].
  pose proof (sizes_entry_above _ _ Ha).
  pose proof (sizes_elem_fit a (list_elem_of_lookup_2 _ _ _ Ha)). lia.
Qed.

(** [insert] of a key of the set changes nothing. *)
Lemma insert_present s key :
  Inv s → is_int key → key ∈ keys s → insert s key = Some s.
Proof.
  intros HI Hk Hin. unfold insert. rewrite (contains_spec s key HI Hk).
  simpl. by rewrite bool_decide_eq_true_2.
Qed.

(** [insert] of a new key returns; the table has grown to its next entry
    when the growth test said so, and is the same otherwise. *)
Lemma insert_absent s key :
  Inv s → is_int key → key ∉ keys s →
  ∃ s', insert s key = Some s' ∧ Inv s'
    ∧ keys s' ≡ₚ key :: keys s
    ∧ countElements s' = countElements s + 1
    ∧ maxLFactor s' = maxLFactor s
    ∧ if grows s
      then currentPrimeIndex s' = currentPrimeIndex s + 1
           ∧ sizes !! Z.to_nat (currentPrimeIndex s + 1)
             = Some (bucketCount s')
      else currentPrimeIndex s' = currentPrimeIndex s
           ∧ bucketCount s' = bucketCount s.
Proof.
  intros HI Hk Hnew. unfold insert. rewrite (contains_spec s key HI Hk).
  simpl. rewrite bool_decide_eq_false_2 by done.
  destruct (grows s) eqn:Hg.
  - unfold grows in Hg. apply andb_true_iff in Hg as [_ Hlt].
    apply bool_decide_eq_true in Hlt.
    pose proof (inv_index s HI) as Hidx.
    pose proof sizes_length_bound as Hlb.
    rewrite to_size_t_small in Hlt by lia. rewrite to_size_t_small by lia.
    destruct (lookup_lt_is_Some_2 sizes (Z.to_nat (currentPrimeIndex s + 1)))
      as [n Hn]; [lia|].
    rewrite Hn. simpl.
    destruct (rehash_spec s n HI)
      as (s1 & -> & HI1 & Hkeys1 & Hcnt1 & Hmax1 & Htarget).
    rewrite (pick_size_entry _ _ Hn) in Htarget.
    destruct Htarget as [Hbc1 Hidx1]. simpl.
    destruct (place_spec s1 key HI1 Hk)
      as (s' & -> & HI' & Hkeys' & Hcnt' & Hbc' & Hidx' & Hmax').
    { by rewrite Hkeys1. }
    exists s'. split_and!; try done.
    + by rewrite Hkeys', Hkeys1.
    + lia.
    + congruence.
    + lia.
    + congruence.
  - simpl.
    destruct (place_spec s key HI Hk Hnew)
      as (s' & -> & HI' & Hkeys' & Hcnt' & Hbc' & Hidx' & Hmax').
    exists s'. split_and!; done.
Qed.

(** ** Erasure *)

Lemma erase_it_spec s n k :
  Inv s → (n, k) ∈ allKeys s →
  ∃ s' next, erase_it s (At n) = Some (s', next) ∧ Inv s'
    ∧ allKeys s ≡ₚ (n, k) :: allKeys s'
    ∧ countElements s' = countElements s - 1
    ∧ bucketCount s' = bucketCount s
    ∧ currentPrimeIndex s' = currentPrimeIndex s
    ∧ maxLFactor s' = maxLFactor s.
Proof.
  intros HI Hin. pose proof (mod_bucket s k HI) as Hb.
  destruct (Inv_focus s _ HI Hb)
    as (runs & P & run & Q & Hok & Hbks & Hrun & HPeq & HQeq & Hall & Hhb
        & Hinb & HP & HQ).
  destruct HI as [Hfits Htable Hidx _ Hids Hfresh Hkeys Hint Hcount].
  set (b := k mod bucketCount s) in *.
  assert (length runs = length (buckets s)) as Hlen
    by (by rewrite Hbks, length_fmap).
  assert (Z.to_nat b < length runs)%nat as Hblt
    by (by apply lookup_lt_Some in Hrun).
  assert ((n, k) ∈ run) as Hr.
  { rewrite Hall, !elem_of_app in Hin. rewrite Forall_forall in HP, HQ.
    destruct Hin as [Hin|[Hin|Hin]]; [|done|].
    - by destruct (HP _ Hin).
    - by destruct (HQ _ Hin). }
  apply list_elem_of_split in Hr as (r1 & r2 & ->).
  assert (allKeys s = (P ++ r1) ++ (n, k) :: (r2 ++ Q)) as Hall'.
  { rewrite Hall. by rewrite <- !(assoc_L (++)). }
  assert (is_int k) as Hk.
  { unfold keys in Hint. rewrite Hall', fmap_app, Forall_app in Hint.
    destruct Hint as [_ Hint]. by apply Forall_cons in Hint as [? _]. }
  assert (Forall is_int (r2 ++ Q).*2) as Hint2.
  { unfold keys in Hint. rewrite Hall', fmap_app, Forall_app in Hint.
    destruct Hint as [_ Hint]. by apply Forall_cons in Hint as [_ ?]. }
  assert (seek n (allKeys s) = Some ((n, k) :: r2 ++ Q)) as Hseek.
  { rewrite Hall'. apply seek_app.
    apply (NoDup_ids_head (P ++ r1) (n, k) (r2 ++ Q)). by rewrite <- Hall'. }
  assert (erase_node n (allKeys s) = (P ++ r1) ++ r2 ++ Q) as Herase.
  { rewrite Hall'. apply (erase_node_app (n, k)). by rewrite <- Hall'. }
  unfold erase_it. rewrite Hseek, Herase.
  simpl. rewrite (bucket_of_ok _ _ Hfits Hk : bucket s k = _). simpl.
  fold b. rewrite Hhb. simpl.
  assert ((if decide (head_it (r1 ++ (n, k) :: r2) = At n)
           then match r2 ++ Q with
                | [] => Some (<[Z.to_nat b := End]> (buckets s))
                | y :: _ =>
                    b' ← bucket s y.2;
                    if decide (b' = b)
                    then Some (<[Z.to_nat b := At y.1]> (buckets s))
                    else Some (<[Z.to_nat b := End]> (buckets s))
                end
           else Some (buckets s))
          = Some (head_it <$> <[Z.to_nat b := r1 ++ r2]> runs)) as ->.
  { rewrite list_fmap_insert, <- Hbks.
    destruct r1 as [|z r1]; simpl.
    - rewrite decide_True by done.
      destruct r2 as [|y r2]; simpl.
      + destruct Q as [|y Q]; [done|].
        simpl in Hint2. apply Forall_cons in Hint2 as [Hy _].
        rewrite (bucket_of_ok _ _ Hfits Hy : bucket s y.2 = _). simpl.
        apply Forall_cons in HQ as [Hne _].
        by rewrite decide_False.
      + simpl in Hint2. apply Forall_cons in Hint2 as [Hy _].
        rewrite (bucket_of_ok _ _ Hfits Hy : bucket s y.2 = _). simpl.
        apply Forall_cons in Hinb as [_ Hinb].
        apply Forall_cons in Hinb as [Hyb _].
        by rewrite decide_True.
    - rewrite decide_False.
      + f_equal. symmetry. apply list_insert_id. by rewrite Hhb.
      + intros [= Hz].
        rewrite Hall in Hids. rewrite !fmap_app in Hids.
        apply NoDup_app in Hids as (_ & _ & Hids).
        apply NoDup_app in Hids as (Hids & _ & _).
        simpl in Hids. apply NoDup_cons in Hids as [Hnin _].
        apply Hnin. apply elem_of_app. right. rewrite Hz. left. }
  simpl.
  assert ((n, k) :: (P ++ r1) ++ r2 ++ Q ≡ₚ allKeys s) as Hperm.
  { rewrite Hall'. apply Permutation_middle. }
  assert (length (head_it <$> <[Z.to_nat b := r1 ++ r2]> runs)
          = length (buckets s)) as Hlen'
    by (by rewrite length_fmap, length_insert).
  assert (0 <= countElements s - 1 < 2 ^ 64) as Hcnt.
  { pose proof (int_keys_bound _ Hkeys Hint) as Hle.
    unfold keys in Hle. rewrite length_fmap in Hle.
    rewrite Hcount, <- Hperm. simpl. rewrite <- Hperm in Hle. simpl in Hle.
    lia. }
  eexists _, _. split; [done|].
  split; [|split; [|split; [|split; [|split]]]]; simpl.
  - constructor; unfold bucketCount, keys in *; simpl; rewrite ?Hlen';
      try done.
    + eexists. split_and!; [|done|].
      * rewrite concat_insert, <- HPeq, <- HQeq by done.
        by rewrite <- !(assoc_L (++)).
      * apply runs_ok_insert; [done|]. rewrite Z2Nat.id by lia.
        rewrite Forall_app in Hinb. destruct Hinb as [H1 H2].
        apply Forall_cons in H2 as [_ H2]. by apply Forall_app.
    + rewrite <- Hperm, fmap_cons in Hids. by apply NoDup_cons in Hids as [_ ?].
    + rewrite <- Hperm in Hfresh. by apply Forall_cons in Hfresh as [_ ?].
    + rewrite <- Hperm, fmap_cons in Hkeys. by apply NoDup_cons in Hkeys as [_ ?].
    + rewrite <- Hperm, fmap_cons in Hint. by apply Forall_cons in Hint as [_ ?].
    + rewrite to_size_t_small by done. rewrite Hcount, <- Hperm. simpl. lia.
  - by rewrite Hperm.
  - by rewrite to_size_t_small.
  - unfold bucketCount. simpl. by rewrite Hlen'.
  - done.
  - done.
Qed.

(** [erase] of a key that is not in the set changes nothing. *)
Lemma erase_absent s key :
  Inv s → is_int key → key ∉ keys s → erase s key = Some s.
Proof.
  intros HI Hk Hnot. unfold erase. by rewrite (find_miss s key HI Hk Hnot).
Qed.

Lemma erase_present s key :
  Inv s → is_int key → key ∈ keys s →
  ∃ s', erase s key = Some s' ∧ Inv s'
    ∧ keys s ≡ₚ key :: keys s'
    ∧ countElements s' = countElements s - 1
    ∧ bucketCount s' = bucketCount s
    ∧ currentPrimeIndex s' = currentPrimeIndex s
    ∧ maxLFactor s' = maxLFactor s.
Proof.
  intros HI Hk Hin. unfold keys in Hin.
  apply list_elem_of_fmap in Hin as ([n k] & -> & Hin). simpl in *.
  unfold erase. rewrite (find_hit s n k HI Hk Hin). cbn -[erase_it].
  destruct (erase_it_spec s n k HI Hin)
    as (s' & next & -> & HI' & Hperm & Hcnt & Hbc & Hidx & Hmax).
  exists s'. split_and!; try done.
  unfold keys. by rewrite Hperm.
Qed.

Lemma erase_it_Inv s it s' next :
  Inv s → erase_it s it = Some (s', next) → Inv s'.
Proof.
  intros HI He. destruct it as [n|]; [|by injection He as <- <-].
  destruct (seek n (allKeys s)) as [rest|] eqn:Hseek.
  2:{ unfold erase_it in He. by rewrite Hseek in He. }
  apply seek_Some in Hseek as (l1 & k & r & Hall & _ & _).
  destruct (erase_it_spec s n k HI) as (s'' & next' & He' & HI' & _).
  { rewrite Hall. apply elem_of_app. right. left. }
  rewrite He in He'. by injection He' as -> _.
Qed.

(** ** The maximum load factor *)

Lemma with_maxLFactor_Inv s maxLoad : Inv s → Inv (with_maxLFactor s maxLoad).
Proof. intros []. by constructor. Qed.

(** The candidates of [first_fit] are tried in turn. *)
Lemma first_fit_Some cnt maxLoad cands n :
  first_fit cnt maxLoad cands = Some n →
  ∃ k : nat, cands !! k = Some n
    ∧ fle (fdiv (float_of cnt) (float_of n)) maxLoad = true
    ∧ ∀ (j : nat) m, (j < k)%nat → cands !! j = Some m →
        fle (fdiv (float_of cnt) (float_of m)) maxLoad = false.
Proof.
  induction cands as [|m cands IH]; simpl; [done|].
  destruct (fle (fdiv (float_of cnt) (float_of m)) maxLoad) eqn:Hm.
  - intros [= ->]. exists 0%nat. split_and!; [done..|]. lia.
  - intros Hf. destruct (IH Hf) as (k & Hk & Hle & Hmin).
    exists (S k). split_and!; [done..|].
    intros [|j] m' Hj; simpl; [by intros [= <-]|].
    apply Hmin. lia.
Qed.


Lemma set_maxLoadFactor_Inv s maxLoad :
  Inv s → ∃ s', set_maxLoadFactor s maxLoad = Some s' ∧ Inv s'
    ∧ keys s' ≡ₚ keys s ∧ countElements s' = countElements s
    ∧ maxLFactor s' = maxLoad.
Proof.
  intros HI. apply (with_maxLFactor_Inv s maxLoad) in HI.
  unfold set_maxLoadFactor.
  destruct (fgt _ _); [|by eexists].
  destruct (first_fit _ _ _) as [n|]; [|by eexists].
  destruct (rehash_spec _ n HI) as (s' & -> & HI' & Hkeys & Hcnt & Hmax & _).
  by exists s'.
Qed.

(** ** Copies *)

Lemma filter_bucket_none c b (l : list Node) :
  Forall (λ x, ¬ in_bucket c b x) l → filter (λ x, x.2 mod c = b) l = [].
Proof.
  induction 1 as [|x l Hx Hl IH]; [done|].
  rewrite filter_cons_False by done. done.
Qed.

Lemma filter_bucket_all c b (l : list Node) :
  Forall (in_bucket c b) l → filter (λ x, x.2 mod c = b) l = l.
Proof.
  induction 1 as [|x l Hx Hl IH]; [done|].
  rewrite filter_cons_True by done. by rewrite IH.
Qed.

(** The loop of the copy constructor gives every bucket the first node of
    the list that belongs to it. *)
Lemma rebuild_spec c todo done bks :
  0 < c <= 2 ^ 31 → Forall is_int todo.*2 →
  length bks = Z.to_nat c →
  (∀ b : nat, (b < Z.to_nat c)%nat →
     bks !! b = Some (head_it (filter (λ x, x.2 mod c = Z.of_nat b) done))) →
  ∃ bks', rebuild c todo bks = Some bks' ∧ length bks' = Z.to_nat c
    ∧ ∀ b : nat, (b < Z.to_nat c)%nat →
        bks' !! b
        = Some (head_it (filter (λ x, x.2 mod c = Z.of_nat b) (done ++ todo))).
Proof.
  intros Hc. revert done bks.
  induction todo as [|x todo IH]; simpl; intros done bks Hint Hlen Hbks.
  - exists bks. rewrite app_nil_r. done.
  - apply Forall_cons in Hint as [Hx Hint].
    rewrite (bucket_of_ok c _ Hc Hx). simpl.
    pose proof (Z.mod_pos_bound x.2 c ltac:(lia)) as Hb.
    rewrite (Hbks (Z.to_nat (x.2 mod c))) by lia. simpl.
    rewrite Z2Nat.id by lia.
    set (bks1 := if decide (head_it (filter (λ y : Node, y.2 mod c = x.2 mod c)
                                       done) = End)
                 then <[Z.to_nat (x.2 mod c) := At x.1]> bks else bks).
    destruct (IH (done ++ [x]) bks1 Hint) as (bks' & Hr & Hlen' & Hbks').
    + unfold bks1. destruct (decide _); [by rewrite length_insert|done].
    + intros b Hblt. rewrite filter_app.
      destruct (decide (b = Z.to_nat (x.2 mod c))) as [->|Hne].
      * rewrite Z2Nat.id by lia.
        rewrite filter_cons_True by done. rewrite filter_nil.
        unfold bks1. destruct (decide _) as [He|Hne].
        -- rewrite list_lookup_insert_eq by lia.
           destruct (filter _ done); [done|]. done.
        -- rewrite Hbks by lia. rewrite Z2Nat.id by lia.
           destruct (filter _ done); [done|]. done.
      * rewrite filter_cons_False by lia. rewrite filter_nil, app_nil_r.
        rewrite <- Hbks by done.
        unfold bks1. destruct (decide _); [|done].
        by rewrite list_lookup_insert_ne.
    + exists bks'. split_and!; [done..|].
      intros b Hblt. rewrite Hbks' by done. by rewrite <- (assoc_L (++)).
Qed.

(** The copy of a container has the bucket table of the original. *)
Lemma copy_spec s : Inv s → HashSet_copy s = Some s.
Proof.
  intros HI. pose proof (inv_fits s HI) as Hfits.
  pose proof (inv_int s HI) as Hint.
  destruct (rebuild_spec (bucketCount s) (allKeys s) []
              (replicate (length (buckets s)) End) Hfits Hint)
    as (bks & Hr & Hlen & Hbks).
  { rewrite length_replicate. unfold bucketCount. lia. }
  { intros b Hb. simpl. apply lookup_replicate_2.
    unfold bucketCount in Hb. lia. }
  unfold HashSet_copy. rewrite Hr. simpl.
  assert (bks = buckets s) as ->; [|by destruct s].
  apply list_eq. intros b.
  destruct (decide (b < Z.to_nat (bucketCount s))%nat) as [Hb|Hb].
  - rewrite Hbks by done. simpl.
    destruct (Inv_focus s (Z.of_nat b) HI)
      as (runs & P & run & Q & _ & _ & _ & _ & _ & Hall & Hhb & Hrun & HP & HQ).
    { lia. }
    rewrite Nat2Z.id in Hhb. rewrite Hhb, Hall. f_equal.
    rewrite !filter_app.
    rewrite (filter_bucket_none _ _ P HP), (filter_bucket_none _ _ Q HQ).
    rewrite (filter_bucket_all _ _ run Hrun). by rewrite app_nil_r.
  - rewrite !lookup_ge_None_2; [done| |lia].
    unfold bucketCount in Hb. lia.
Qed.

(** ** Every state the operations reach satisfies the invariant *)

Lemma reachable_Inv s : reachable s → Inv s.
Proof.
  induction 1 as [s Hnew|s s' _ IH Hcopy|s key s' _ IH Hk Hins
                 |s key s' _ IH Hk Her|s it s' next _ IH Her
                 |s n s' _ IH Hn Hre|s maxLoad s' _ IH Hset].
  - by apply new_Inv.
  - rewrite (copy_spec s IH) in Hcopy. by injection Hcopy as <-.
  - destruct (decide (key ∈ keys s)) as [Hin|Hnot].
    + rewrite (insert_present s key IH Hk Hin) in Hins.
      by injection Hins as <-.
    + destruct (insert_absent s key IH Hk Hnot) as (s'' & Hins' & HI' & _).
      rewrite Hins in Hins'. by injection Hins' as ->.
  - destruct (decide (key ∈ keys s)) as [Hin|Hnot].
    + destruct (erase_present s key IH Hk Hin) as (s'' & Her' & HI' & _).
      rewrite Her in Her'. by injection Her' as ->.
    + rewrite (erase_absent s key IH Hk Hnot) in Her.
      by injection Her as <-.
  - by eapply erase_it_Inv.
  - destruct (rehash_spec s n IH) as (s'' & Hre' & HI' & _).
    rewrite Hre in Hre'. by injection Hre' as ->.
  - destruct (set_maxLoadFactor_Inv s maxLoad IH) as (s'' & Hset' & HI' & _).
    rewrite Hset in Hset'. by injection Hset' as ->.
Qed.

(** ** Consequences of the invariant *)

Lemma contains_true s key :
  Inv s → is_int key → contains s key = Some true → key ∈ keys s.
Proof.
  intros HI Hk. rewrite (contains_spec s key HI Hk). intros [= Hc].
  by apply bool_decide_eq_true in Hc.
Qed.

Lemma contains_false s key :
  Inv s → is_int key → contains s key = Some false → key ∉ keys s.
Proof.
  intros HI Hk. rewrite (contains_spec s key HI Hk). intros [= Hc].
  by apply bool_decide_eq_false in Hc.
Qed.

Lemma sorted_lookup {A} (R : relation A) `{!Reflexive R} (l : list A)
    (i j : nat) x y :
  StronglySorted R l → (i <= j)%nat →
  l !! i = Some x → l !! j = Some y → R x y.
Proof.
  intros Hs. revert i j. induction Hs as [|a l Hs IH Ha]; intros i j Hij.
  - done.
  - destruct i as [|i], j as [|j]; simpl; try lia.
    + by intros [= <-] [= <-].
    + intros [= <-] Hy. rewrite Forall_forall in Ha.
      apply Ha. by eapply list_elem_of_lookup_2.
    + apply IH. lia.
Qed.

(** Iteration order is bucket order. *)
Lemma Inv_sorted s (i j : nat) x y :
  Inv s → (i <= j)%nat → keys s !! i = Some x → keys s !! j = Some y →
  x mod bucketCount s <= y mod bucketCount s.
Proof.
  intros [_ _ _ (runs & Hall & _ & Hok) _ _ _ _ _] Hij Hx Hy.
  unfold keys in *. rewrite list_lookup_fmap in Hx, Hy.
  destruct (allKeys s !! i) as [nx|] eqn:Hnx; [|done].
  destruct (allKeys s !! j) as [ny|] eqn:Hny; [|done].
  simpl in *. injection Hx as <-. injection Hy as <-.
  pose proof (runs_sorted (bucketCount s) runs Hok) as Hs.
  rewrite <- Hall in Hs.
  refine (sorted_lookup _ _ i j nx ny Hs Hij Hnx Hny).
  intros z. reflexivity.
Qed.

Lemma insert_all_spec s ks :
  Inv s → Forall is_int ks →
  ∃ s', insert_all s ks = Some s' ∧ Inv s'
    ∧ ∀ k, k ∈ keys s' ↔ k ∈ keys s ∨ k ∈ ks.
Proof.
  intros HI Hint. revert s HI.
  induction Hint as [|key ks Hk Hint IH]; intros s HI; simpl.
  - exists s. split_and!; [done..|]. intros k. rewrite elem_of_nil. tauto.
  - destruct (decide (key ∈ keys s)) as [Hin|Hnot].
    + rewrite (insert_present s key HI Hk Hin). simpl.
      destruct (IH s HI) as (s' & -> & HI' & Hel).
      exists s'. split_and!; [done..|]. intros k.
      rewrite Hel, elem_of_cons. split; [tauto|].
      intros [?|[->|?]]; tauto.
    + destruct (insert_absent s key HI Hk Hnot) as (s1 & -> & HI1 & Hkeys1 & _).
      simpl. destruct (IH s1 HI1) as (s' & -> & HI' & Hel).
      exists s'. split_and!; [done..|]. intros k.
      rewrite Hel, Hkeys1, !elem_of_cons. tauto.
Qed.

Lemma insert_all_reachable s ks s' :
  reachable s → Forall is_int ks → insert_all s ks = Some s' → reachable s'.
Proof.
  intros Hr Hint. revert s Hr.
  induction Hint as [|key ks Hk Hint IH]; intros s Hr; simpl.
  - by intros [= <-].
  - destruct (insert s key) as [s1|] eqn:Hins; [|done]. simpl.
    apply IH. by eapply reach_insert.
Qed.

(** The size after a run of inserts into an empty container. *)
Lemma insert_all_size s0 ks :
  HashSet_new = Some s0 → Forall is_int ks →
  ∃ s, insert_all s0 ks = Some s
    ∧ keys s ≡ₚ remove_dups ks
    ∧ size s = Z.of_nat (length (remove_dups ks)).
Proof.
  intros Hnew Hint. pose proof (new_Inv s0 Hnew) as HI0.
  destruct (insert_all_spec s0 ks HI0 Hint) as (s & Hall & HI & Hel).
  exists s. split; [done|].
  assert (keys s ≡ₚ remove_dups ks) as Hperm.
  { apply NoDup_Permutation.
    - by destruct HI.
    - apply NoDup_remove_dups.
    - intros k. rewrite Hel, elem_of_remove_dups.
      unfold HashSet_new in Hnew.
      destruct (sizes !! 0%nat); [|done]. injection Hnew as <-.
      unfold keys. simpl. rewrite elem_of_nil. tauto. }
  split; [done|].
  unfold size. rewrite (inv_count sizes s HI), <- Hperm.
  unfold keys. by rewrite length_fmap.
Qed.


(** ** The bucket table and the sizes of the buckets *)

(** Under the invariant the nodes of bucket [b] are its run. *)
Lemma Inv_filter s (b : Z) :
  Inv s → 0 <= b < bucketCount s →
  ∃ P run Q,
    allKeys s = P ++ run ++ Q
    ∧ filter (λ x : Node, x.2 mod bucketCount s = b) (allKeys s) = run
    ∧ buckets s !! Z.to_nat b = Some (head_it run)
    ∧ Forall (in_bucket (bucketCount s) b) run
    ∧ Forall (λ x, ¬ in_bucket (bucketCount s) b x) Q.
Proof.
  intros HI Hb.
  destruct (Inv_focus s b HI Hb)
    as (runs & P & run & Q & _ & _ & _ & _ & _ & Hall & Hhb & Hrun & HP & HQ).
  exists P, run, Q. split_and!; try done.
  rewrite Hall, !filter_app.
  rewrite (filter_bucket_none _ _ P HP), (filter_bucket_none _ _ Q HQ).
  rewrite (filter_bucket_all _ _ run Hrun). by rewrite app_nil_r.
Qed.

Lemma Inv_heads s (b : Z) :
  Inv s → 0 <= b < bucketCount s →
  buckets s !! Z.to_nat b
  = Some (head_it (filter (λ x : Node, x.2 mod bucketCount s = b)
                     (allKeys s))).
Proof.
  intros HI Hb.
  destruct (Inv_filter s b HI Hb) as (P & run & Q & _ & -> & Hhb & _).
  done.
Qed.

(** The bucket table is a function of the list and the bucket count. *)
Lemma Inv_buckets_eq s s' :
  Inv s → Inv s' → allKeys s = allKeys s' → bucketCount s = bucketCount s' →
  buckets s = buckets s'.
Proof.
  intros HI HI' Hall Hbc. apply list_eq. intros b.
  destruct (decide (Z.of_nat b < bucketCount s)) as [Hb|Hb].
  - pose proof (Inv_heads s (Z.of_nat b) HI ltac:(lia)) as H1.
    pose proof (Inv_heads s' (Z.of_nat b) HI' ltac:(lia)) as H2.
    rewrite Nat2Z.id in H1, H2. by rewrite H1, H2, Hall, Hbc.
  - rewrite !lookup_ge_None_2; [done|..]; unfold bucketCount in *; lia.
Qed.

Lemma run_length_run c b run post :
  0 < c <= 2 ^ 31 →
  Forall is_int (run ++ post).*2 →
  Forall (in_bucket c b) run →
  Forall (λ x, ¬ in_bucket c b x) post →
  Z.of_nat (length run) < 2 ^ 64 →
  run_length c b (run ++ post) = Some (Z.of_nat (length run)).
Proof.
  intros Hc Hint Hrun Hpost.
  induction run as [|x run IH]; simpl in *; intros Hlen.
  - destruct post as [|y post]; simpl; [done|].
    apply Forall_cons in Hint as [Hy _]. apply Forall_cons in Hpost as [Hb _].
    rewrite (bucket_of_ok c _ Hc Hy). simpl.
    by rewrite decide_False.
  - apply Forall_cons in Hint as [Hx Hint]. apply Forall_cons in Hrun as [Hb Hrun].
    rewrite (bucket_of_ok c _ Hc Hx). simpl.
    rewrite decide_True by done.
    rewrite (IH Hint Hrun) by lia. simpl.
    rewrite to_size_t_small by lia. f_equal. lia.
Qed.

Lemma filter_keys_length (P : Z → Prop) `{!∀ k, Decision (P k)}
    (l : list Node) :
  length (filter P l.*2) = length (filter (λ x : Node, P x.2) l).
Proof.
  induction l as [|x l IH]; [done|].
  rewrite fmap_cons. destruct (decide (P x.2)) as [Hx|Hx].
  - rewrite !filter_cons_True by done. simpl. by rewrite IH.
  - rewrite !filter_cons_False by done. done.
Qed.

(** [bucketSize(b)] returns for every [b], with the number of keys of the
    set whose bucket is [b]. *)
Lemma bucketSize_spec s (b : Z) :
  Inv s → 0 <= b →
  bucketSize s b
  = Some (Z.of_nat (length (filter (λ k, k mod bucketCount s = b) (keys s)))).
Proof.
  intros HI Hb0. unfold keys. rewrite filter_keys_length.
  pose proof (inv_fits s HI) as Hfits.
  pose proof (Inv_count_bound s HI) as Hbound.
  pose proof (inv_count sizes s HI) as Hcount.
  pose proof (inv_ids sizes s HI) as Hids.
  pose proof (inv_int s HI) as Hint. unfold keys in Hint.
  unfold bucketSize.
  destruct (decide (bucketCount s <= b)) as [Hge|Hlt].
  - rewrite filter_bucket_none; [done|].
    apply Forall_forall. intros x _. unfold in_bucket.
    pose proof (Z.mod_pos_bound x.2 (bucketCount s) ltac:(lia)). lia.
  - destruct (Inv_filter s b HI ltac:(lia))
      as (P & run & Q & Hall & -> & Hhb & Hrun & HQ).
    rewrite Hhb. simpl. rewrite Hall in Hids, Hint, Hcount.
    destruct run as [|x run]; [done|].
    rewrite decide_False by done.
    rewrite Hall, (from_run P (x :: run) Q Hids). simpl.
    rewrite !fmap_app, !Forall_app in Hint.
    rewrite !length_app in Hcount.
    apply (run_length_run _ b (x :: run) Q Hfits); try done.
    + rewrite fmap_app, Forall_app. tauto.
    + lia.
Qed.

(** ** Where [erase] and [insert] change the list *)

Lemma erase_node_at n k (l r : list Node) :
  n ∉ l.*1 → erase_node n (l ++ (n, k) :: r) = l ++ r.
Proof.
  induction l as [|y l IH]; simpl; intros Hn.
  - by rewrite decide_True.
  - apply not_elem_of_cons in Hn as [? ?].
    rewrite decide_False by done. by rewrite IH.
Qed.

(** What [erase(Iterator)] returns when it returns: the node is gone from
    its place, the iterator returned is the one to its successor, and
    nothing but the list, the bucket table and the count has changed. *)
Lemma erase_it_shape s n s' next :
  erase_it s (At n) = Some (s', next) →
  ∃ l1 k l2,
    allKeys s = l1 ++ (n, k) :: l2 ∧ (n ∉ l1.*1)
    ∧ allKeys s' = l1 ++ l2 ∧ next = head_it l2
    ∧ countElements s' = to_size_t (countElements s - 1)
    ∧ length (buckets s') = length (buckets s)
    ∧ maxLFactor s' = maxLFactor s
    ∧ currentPrimeIndex s' = currentPrimeIndex s
    ∧ nextNode s' = nextNode s.
Proof.
  unfold erase_it. intros He.
  destruct (seek n (allKeys s)) as [rest|] eqn:Hseek; [|done].
  apply seek_Some in Hseek as (l1 & k & l2 & Hall & -> & Hn).
  simpl in He.
  destruct (bucket s k) as [b|]; [|done]. simpl in He.
  destruct (buckets s !! Z.to_nat b) as [hb|]; [|done]. simpl in He.
  exists l1, k, l2.
  assert (erase_node n (allKeys s) = l1 ++ l2) as Herase.
  { rewrite Hall. by apply erase_node_at. }
  destruct (decide (hb = At n)).
  - destruct l2 as [|y l2].
    + injection He as <- <-. simpl. by rewrite length_insert.
    + destruct (bucket s y.2) as [b'|]; [|done]. simpl in He.
      destruct (decide (b' = b)); injection He as <- <-; simpl;
        by rewrite length_insert.
  - simpl in He. by injection He as <- <-.
Qed.

(** The iterator at which [insert] puts the node of a new key is the one to
    the first node after the run of the key's bucket. *)
Lemma place_pos s (b : Z) runs (run : list Node) :
  Inv s → 0 <= b < bucketCount s →
  buckets s = head_it <$> runs →
  runs !! Z.to_nat b = Some run →
  Forall (in_bucket (bucketCount s) b) run →
  allKeys s
  = concat (take (Z.to_nat b) runs) ++ run
    ++ concat (drop (S (Z.to_nat b)) runs) →
  Forall (λ x, ¬ in_bucket (bucketCount s) b x)
    (concat (drop (S (Z.to_nat b)) runs)) →
  (if decide (head_it run ≠ End)
   then rest ← from (allKeys s) (head_it run);
        skip_run (bucketCount s) b rest
   else
     if decide (skip_empty (drop (Z.to_nat (to_size_t (b + 1))) (buckets s))
                  (to_size_t (b + 1)) < bucketCount s)
     then buckets s
          !! Z.to_nat (skip_empty
                         (drop (Z.to_nat (to_size_t (b + 1))) (buckets s))
                         (to_size_t (b + 1)))
     else Some End)
  = Some (head_it (concat (drop (S (Z.to_nat b)) runs))).
Proof.
  intros HI Hb Hbks Hrun Hinb Hall HQ.
  pose proof (inv_fits s HI) as Hfits.
  pose proof (inv_ids sizes s HI) as Hids.
  pose proof (inv_int s HI) as Hint. unfold keys in Hint.
  assert (length runs = length (buckets s)) as Hlen
    by (by rewrite Hbks, length_fmap).
  destruct run as [|x r].
  - rewrite decide_False by (simpl; auto).
    rewrite to_size_t_small by lia.
    replace (Z.to_nat (b + 1)) with (S (Z.to_nat b)) by lia.
    rewrite Hbks, <- fmap_drop.
    destruct (skip_empty_spec (drop (S (Z.to_nat b)) runs) (b + 1))
      as ((Hlo & Hhi) & Hin & Hout).
    rewrite length_drop, Hlen in Hhi, Hin, Hout.
    unfold bucketCount in *.
    destruct (decide (skip_empty (head_it <$> drop (S (Z.to_nat b)) runs)
                        (b + 1) < Z.of_nat (length (buckets s))))
      as [Hlt|Hge].
    + specialize (Hin ltac:(lia)).
      rewrite fmap_drop, lookup_drop in Hin.
      rewrite <- Hin, <- fmap_drop. f_equal. lia.
    + rewrite Hout by lia. done.
  - rewrite decide_True by done. rewrite Hall.
    rewrite (from_run _ (x :: r) _) by (by rewrite <- Hall). simpl.
    rewrite Hall, !fmap_app, !Forall_app in Hint.
    apply (skip_run_run _ Hfits b (x :: r)); [|done..].
    rewrite fmap_app, Forall_app. tauto.
Qed.

(** [insert] puts the node of a new key right after the run of the key's
    bucket: after every node whose bucket is not greater, before every
    node whose bucket is greater. *)
Lemma place_shape s key :
  Inv s → is_int key → key ∉ keys s →
  ∃ s' l1 l2,
    place s key = Some s' ∧ Inv s'
    ∧ allKeys s = l1 ++ l2
    ∧ allKeys s' = l1 ++ (nextNode s, key) :: l2
    ∧ Forall (λ x : Node, x.2 mod bucketCount s
                          <= key mod bucketCount s) l1
    ∧ Forall (λ x : Node, key mod bucketCount s
                          < x.2 mod bucketCount s) l2
    ∧ bucketCount s' = bucketCount s
    ∧ countElements s' = countElements s + 1
    ∧ currentPrimeIndex s' = currentPrimeIndex s
    ∧ maxLFactor s' = maxLFactor s
    ∧ nextNode s' = S (nextNode s).
Proof.
  intros HI Hk Hnew. pose proof (mod_bucket s key HI) as Hb.
  destruct (place_spec s key HI Hk Hnew)
    as (s' & Hplace & HI' & _ & Hcnt & Hbc & Hidx & Hmax).
  destruct (Inv_focus s _ HI Hb)
    as (runs & P & run & Q & Hok & Hbks & Hrun & HPeq & HQeq & Hall & Hhb
        & Hinb & HP & HQ).
  pose proof (inv_fits s HI) as Hfits.
  pose proof (inv_ids sizes s HI) as Hids.
  assert (insert_before (head_it Q) (nextNode s, key) (allKeys s)
          = Some (P ++ (run ++ [(nextNode s, key)]) ++ Q)) as Hins.
  { rewrite Hall, (assoc_L (++)).
    rewrite insert_before_head_it by (by rewrite <- (assoc_L (++)), <- Hall).
    by rewrite <- !(assoc_L (++)). }
  pose proof (place_pos s _ runs run HI Hb Hbks Hrun Hinb) as Hpos.
  rewrite <- HPeq, <- HQeq in Hpos. specialize (Hpos Hall HQ).
  exists s', (P ++ run), Q. pose proof Hplace as Hplace0.
  unfold place in Hplace.
  rewrite (bucket_of_ok _ _ Hfits Hk : bucket s key = _) in Hplace.
  simpl in Hplace. rewrite Hhb in Hplace. simpl in Hplace.
  rewrite Hpos in Hplace. simpl in Hplace.
  rewrite Hins in Hplace. simpl in Hplace.
  destruct (if decide (head_it run = End) then Some true else _)
    as [upd|]; [|done].
  simpl in Hplace. injection Hplace as <-. simpl.
  split_and!; try done.
  - by rewrite Hall, (assoc_L (++)).
  - by rewrite <- !(assoc_L (++)).
  - apply Forall_app. split.
    + rewrite HPeq. eapply Forall_impl; [by apply runs_before|].
      simpl. intros x Hx. lia.
    + eapply Forall_impl; [exact Hinb|]. unfold in_bucket. intros x ->. lia.
  - rewrite HQeq. eapply Forall_impl; [by apply runs_after|].
    simpl. intros x Hx. lia.
Qed.

(** ** [rehash] sorts the keys on their new bucket, keeping their order *)

Lemma distribute_filter c ks temp next temp' next' :
  0 < c <= 2 ^ 31 → Forall is_int ks →
  distribute c ks temp next = Some (temp', next') →
  ∀ b : nat,
    temp' !! b
    = (λ run, run ++ filter (λ x : Node, x.2 mod c = Z.of_nat b)
                       (zip (seq next (length ks)) ks)) <$> temp !! b.
Proof.
  intros Hc Hint. revert temp next.
  induction Hint as [|key ks Hk Hint IH]; simpl; intros temp next Hd b.
  - injection Hd as <- <-. rewrite filter_nil.
    destruct (temp !! b); simpl; [|done]. by rewrite app_nil_r.
  - rewrite (bucket_of_ok c key Hc Hk) in Hd. simpl in Hd.
    pose proof (Z.mod_pos_bound key c ltac:(lia)) as Hb.
    destruct (temp !! Z.to_nat (key mod c)) as [run|] eqn:Hrun; [|done].
    simpl in Hd. rewrite (IH _ _ Hd b).
    destruct (decide (b = Z.to_nat (key mod c))) as [->|Hne].
    + rewrite list_lookup_insert_eq by (by eapply lookup_lt_Some).
      rewrite Hrun. simpl. rewrite filter_cons_True by (simpl; lia).
      by rewrite <- (assoc_L (++)).
    + rewrite list_lookup_insert_ne by done.
      rewrite filter_cons_False by (simpl; lia). done.
Qed.

Lemma filter_keys_fmap (P : Z → Prop) `{!∀ k, Decision (P k)}
    (l : list Node) :
  filter P l.*2 = (filter (λ x : Node, P x.2) l).*2.
Proof.
  induction l as [|x l IH]; [done|].
  rewrite fmap_cons. destruct (decide (P x.2)) as [Hx|Hx].
  - rewrite !filter_cons_True by done. by rewrite fmap_cons, IH.
  - rewrite !filter_cons_False by done. done.
Qed.

Lemma fmap_snd_concat (L : list (list Node)) :
  (concat L).*2 = concat ((λ l : list Node, l.*2) <$> L).
Proof.
  induction L as [|l L IH]; [done|].
  simpl. by rewrite fmap_app, IH.
Qed.

(** [rehash] with its loops run: the new list is the temporary lists one
    after the other. *)
Lemma rehash_unfold s newSize :
  Inv s →
  ∃ c i temp,
    c ∈ sizes
    ∧ distribute c (keys s) (replicate (Z.to_nat c) []) (nextNode s)
      = Some (temp, (nextNode s + length (keys s))%nat)
    ∧ length temp = Z.to_nat c
    ∧ rehash s newSize
      = Some (mkHashSet (concat temp) (head_it <$> temp) (countElements s)
                (maxLFactor s) i (nextNode s + length (keys s))).
Proof.
  intros HI. pose proof (Inv_count_bound s HI) as Hbound.
  destruct HI as [_ _ Hidx _ _ _ Hkeys Hint Hcount].
  unfold rehash.
  destruct (last sizes) as [back|] eqn:Hback.
  2:{ apply last_None in Hback. rewrite Hback in Hidx. simpl in Hidx. lia. }
  simpl.
  set (choice := default (back, currentPrimeIndex s)
                   (pick_size newSize sizes 0)).
  assert (choice.1 ∈ sizes) as Hin.
  { unfold choice. destruct (pick_size newSize sizes 0) as [[m i]|] eqn:Hp.
    - simpl. apply pick_size_Some in Hp as (k & -> & Hk & _).
      by eapply list_elem_of_lookup_2.
    - simpl. by apply last_Some_elem_of. }
  destruct choice as [newBCount newPrimeIndex]. simpl in *.
  pose proof (sizes_elem_fit _ Hin) as Hfit.
  destruct (distribute_spec newBCount (keys s)
              (replicate (Z.to_nat newBCount) []) (nextNode s) Hfit)
    as (temp & Hd & Hlen & Hok & Hperm).
  { by rewrite length_replicate. }
  { apply runs_ok_replicate. }
  { done. }
  rewrite concat_replicate_nil in Hperm. simpl in Hperm.
  exists newBCount, newPrimeIndex, temp. split_and!; try done.
  rewrite Hd. simpl.
  assert (length (concat temp) = length (allKeys s)) as Hlenc.
  { rewrite Hperm, length_zip, length_seq. unfold keys.
    rewrite length_fmap. lia. }
  pose proof (reassemble_spec temp [] [] 0) as Hre. simpl in Hre.
  rewrite Hlen in Hre. rewrite Hre by lia.
  do 2 f_equal. lia.
Qed.

(** The list [rehash] leaves: for every new bucket in turn, the keys of
    that bucket in the order the old list had them, each in a node that did
    not exist before. *)
Lemma rehash_shape s newSize s' :
  Inv s → rehash s newSize = Some s' →
  allKeys s'
  = concat ((λ b : nat,
               filter (λ x : Node, x.2 mod bucketCount s' = Z.of_nat b)
                 (zip (seq (nextNode s) (length (keys s))) (keys s)))
            <$> seq 0 (length (buckets s'))).
Proof.
  intros HI Hre.
  destruct (rehash_unfold s newSize HI)
    as (c & i & temp & Hin & Hd & Hlen & Hre').
  rewrite Hre in Hre'. injection Hre' as ->.
  pose proof (sizes_elem_fit _ Hin) as Hfit.
  unfold bucketCount. simpl. rewrite length_fmap, Hlen, Z2Nat.id by lia.
  f_equal. apply list_eq. intros b.
  rewrite (distribute_filter c _ _ _ _ _ Hfit (inv_int s HI) Hd b).
  rewrite list_lookup_fmap.
  destruct (decide (b < Z.to_nat c)%nat) as [Hb|Hb].
  - rewrite lookup_replicate_2 by done.
    rewrite lookup_seq_lt by done. done.
  - rewrite (lookup_ge_None_2 (replicate _ _)) by (rewrite length_replicate; lia).
    rewrite lookup_seq_ge by lia. done.
Qed.

(** ** Valid iterators *)

Lemma seek_None n (l : list Node) : n ∉ l.*1 → seek n l = None.
Proof.
  induction l as [|y l IH]; simpl; intros Hn; [done|].
  apply not_elem_of_cons in Hn as [? ?].
  rewrite decide_False by done. auto.
Qed.

(** An iterator to a node of the list is valid and gives the node's key. *)
Lemma seek_node n k (l : list Node) :
  NoDup l.*1 → (n, k) ∈ l → ∃ rest, seek n l = Some ((n, k) :: rest).
Proof.
  intros Hnd Hin. apply list_elem_of_split in Hin as (l1 & l2 & ->).
  exists l2. apply seek_app. by apply (NoDup_ids_head l1 (n, k) l2).
Qed.

(** A node splits a list without repeated identities in one way only. *)
Lemma split_at_node n k k' (l1 l2 l1' l2' : list Node) :
  n ∉ l1.*1 → n ∉ l1'.*1 →
  l1 ++ (n, k) :: l2 = l1' ++ (n, k') :: l2' →
  l1 = l1' ∧ k = k' ∧ l2 = l2'.
Proof.
  revert l1'. induction l1 as [|x l1 IH]; intros [|x' l1']; simpl.
  - intros _ _ [= -> ->]. done.
  - intros _ Hn [= <- _]. destruct Hn. simpl. left.
  - intros Hn _ [= -> _]. destruct Hn. simpl. left.
  - intros Hn Hn' [= -> Heq].
    apply not_elem_of_cons in Hn as [_ Hn].
    apply not_elem_of_cons in Hn' as [_ Hn'].
    destruct (IH l1' Hn Hn' Heq) as (-> & -> & ->). done.
Qed.

Lemma filter_ne_absent (key : Z) (l : list Z) :
  key ∉ l → filter (λ k, k ≠ key) l = l.
Proof.
  induction l as [|x l IH]; intros Hl; [done|].
  apply not_elem_of_cons in Hl as [? ?].
  rewrite filter_cons_True by done. by rewrite IH.
Qed.

Lemma filter_ne_middle (key : Z) (l1 l2 : list Z) :
  key ∉ l1 → key ∉ l2 →
  filter (λ k, k ≠ key) (l1 ++ key :: l2) = l1 ++ l2.
Proof.
  intros H1 H2. rewrite filter_app, filter_cons_False.
  - by rewrite !filter_ne_absent.
  - intros Hne. by apply Hne.
Qed.

(** ** The list is its buckets one after the other *)

Lemma runs_filter c runs (b : nat) run :
  runs_ok c runs → runs !! b = Some run →
  filter (λ x : Node, x.2 mod c = Z.of_nat b) (concat runs) = run.
Proof.
  intros Hok Hrun. rewrite (concat_split runs b run Hrun), !filter_app.
  rewrite (filter_bucket_none c (Z.of_nat b) (concat (take b runs))).
  2:{ eapply Forall_impl; [by apply runs_before|].
      unfold in_bucket. simpl. intros x Hx. lia. }
  rewrite (filter_bucket_none c (Z.of_nat b) (concat (drop (S b) runs))).
  2:{ eapply Forall_impl; [by apply runs_after|].
      unfold in_bucket. simpl. intros x Hx. lia. }
  rewrite (filter_bucket_all c (Z.of_nat b) run) by (by apply Hok).
  by rewrite app_nil_r.
Qed.

Lemma Inv_concat_filter s :
  Inv s →
  concat ((λ b : nat,
             filter (λ x : Node, x.2 mod bucketCount s = Z.of_nat b)
               (allKeys s))
          <$> seq 0 (length (buckets s)))
  = allKeys s.
Proof.
  intros [_ _ _ (runs & Hall & Hbks & Hok) _ _ _ _ _].
  transitivity (concat runs); [|done]. f_equal. apply list_eq. intros b.
  rewrite list_lookup_fmap, Hbks, length_fmap.
  destruct (runs !! b) as [run|] eqn:Hrun.
  - rewrite lookup_seq_lt by (by eapply lookup_lt_Some). simpl.
    by rewrite Hall, (runs_filter _ runs b run Hok Hrun).
  - rewrite lookup_seq_ge; [done|]. by apply lookup_ge_None.
Qed.

(** The keys, bucket by bucket, of a list of nodes. *)
Lemma keys_by_bucket c n (l : list Node) :
  (concat ((λ b : nat, filter (λ x : Node, x.2 mod c = Z.of_nat b) l)
           <$> seq 0 n)).*2
  = concat ((λ b : nat, filter (λ k, k mod c = Z.of_nat b) l.*2) <$> seq 0 n).
Proof.
  rewrite fmap_snd_concat, <- list_fmap_compose. f_equal.
  apply list_fmap_ext. intros _ b _. simpl.
  by rewrite (filter_keys_fmap (λ k, k mod c = Z.of_nat b)).
Qed.

(** The nodes of the list [rehash] leaves did not exist before. *)
Lemma rehash_fresh s newSize s' :
  Inv s → rehash s newSize = Some s' →
  Forall (λ x : Node, (nextNode s <= x.1)%nat) (allKeys s').
Proof.
  intros HI Hre. rewrite (rehash_shape s newSize s' HI Hre).
  apply Forall_concat, Forall_fmap, Forall_forall. intros b _. simpl.
  apply Forall_forall. intros x Hx.
  apply list_elem_of_filter in Hx as [_ Hx].
  apply (list_elem_of_fmap_2 fst) in Hx. rewrite zip_seq_fst in Hx.
  apply elem_of_seq in Hx. lia.
Qed.

End Proofs.

(** * The specification's properties *)

(** ** The tables and states of the scenarios *)

Lemma sizes_7_17_fits : table_fits sizes_7_17.
Proof. repeat constructor; lia. Qed.

Lemma sizes_7_17_ascending : table_ascending sizes_7_17.
Proof.
  intros [|[|i]] [|[|j]] a b Ha Hb Hij; simpl in *; simplify_eq; lia.
Qed.

Lemma fresh_7_reachable : reachable sizes_7_17 fresh_7.
Proof. by apply reach_new. Qed.

Lemma seven_keys_reachable : reachable sizes_7_17 seven_keys.
Proof.
  apply (insert_all_reachable sizes_7_17 fresh_7 [8; 1; -5; 15; 3; -7; 22]).
  - apply fresh_7_reachable.
  - repeat constructor; lia.
  - by vm_compute.
Qed.

(** ** The load factor after an insert *)

(** C1, as stated, fails: with the table [[7; 17]] and the default maximum
    load factor, the eighth insert of a new key returns with seven buckets
    and a load factor of 8/7, above the maximum 1.0, although the table has
    a larger entry left. *)
Lemma insert_load_factor_exceeded :
  (s0 ← HashSet_new sizes_7_17;
   s8 ← insert_all sizes_7_17 s0 [1; 2; 3; 4; 5; 6; 7; 8];
   Some (bucketCount s8,
         fle (loadFactor s8) (maxLoadFactor s8),
         bool_decide (currentPrimeIndex s8 + 1
                      < Z.of_nat (length sizes_7_17))))
  = Some (7, false, true).
Proof. by vm_compute. Qed.

(** C1, amended: an insert of a new key returns with one element more and
    the same maximum load factor.  The growth test looks at the load factor
    from before the insert: when that one did not exceed the maximum, the
    bucket count is unchanged and it is [(size() - 1) / bucketCount()] that
    does not exceed the maximum afterwards; when the test fires, the bucket
    count is the table's next entry.  With the table [[7; 17]] and the
    maximum 1.0, eight inserts leave seven buckets and the ninth insert
    grows the table to 17. *)
Theorem insert_load_factor (sizes : list Z) (s : HashSet) (key : Z) :
  table_fits sizes → table_ascending sizes →
  reachable sizes s → is_int key → contains s key = Some false →
  (∃ s', insert sizes s key = Some s'
     ∧ size s' = size s + 1
     ∧ maxLoadFactor s' = maxLoadFactor s
     ∧ (fgt (loadFactor s) (maxLoadFactor s) = false →
        bucketCount s' = bucketCount s
        ∧ fgt (fdiv (float_of (size s' - 1)) (float_of (bucketCount s')))
            (maxLoadFactor s') = false)
     ∧ (grows sizes s = true →
        sizes !! Z.to_nat (currentPrimeIndex s + 1) = Some (bucketCount s')))
  ∧ (s0 ← HashSet_new sizes_7_17;
     s8 ← insert_all sizes_7_17 s0 [1; 2; 3; 4; 5; 6; 7; 8];
     s9 ← insert sizes_7_17 s8 9;
     Some (bucketCount s8, bucketCount s9)) = Some (7, 17).
Proof.
  intros Hfit Hasc Hr Hk Hc. split; [|by vm_compute].
  pose proof (reachable_Inv sizes Hfit Hasc s Hr) as HI.
  pose proof (contains_false sizes s key HI Hk Hc) as Hnot.
  destruct (insert_absent sizes Hfit Hasc s key HI Hk Hnot)
    as (s' & Hins & HI' & _ & Hcnt & Hmax & Hgrow).
  exists s'. unfold size, maxLoadFactor. split_and!; try done.
  - intros Hgt. unfold grows in Hgrow. rewrite Hgt in Hgrow. simpl in Hgrow.
    destruct Hgrow as [_ Hbc]. split; [done|].
    rewrite Hcnt, Hbc, Hmax, Z.add_simpl_r.
    unfold loadFactor in Hgt. pose proof (inv_fits sizes s HI).
    by rewrite decide_True in Hgt by lia.
  - intros Hg. rewrite Hg in Hgrow. tauto.
Qed.

Lemma insert_load_factor_witness :
  (∃ s', insert sizes_7_17 seven_keys 9 = Some s'
     ∧ size s' = size seven_keys + 1
     ∧ maxLoadFactor s' = maxLoadFactor seven_keys
     ∧ (fgt (loadFactor seven_keys) (maxLoadFactor seven_keys) = false →
        bucketCount s' = bucketCount seven_keys
        ∧ fgt (fdiv (float_of (size s' - 1)) (float_of (bucketCount s')))
            (maxLoadFactor s') = false)
     ∧ (grows sizes_7_17 seven_keys = true →
        sizes_7_17 !! Z.to_nat (currentPrimeIndex seven_keys + 1)
        = Some (bucketCount s')))
  ∧ (s0 ← HashSet_new sizes_7_17;
     s8 ← insert_all sizes_7_17 s0 [1; 2; 3; 4; 5; 6; 7; 8];
     s9 ← insert sizes_7_17 s8 9;
     Some (bucketCount s8, bucketCount s9)) = Some (7, 17).
Proof.
  apply (insert_load_factor sizes_7_17 seven_keys 9).
  - apply sizes_7_17_fits.
  - apply sizes_7_17_ascending.
  - apply seven_keys_reachable.
  - unfold is_int. lia.
  - by vm_compute.
Defined.

(** ** Rehashing keeps the set *)

(** C2: [rehash(n)] returns from every state and for every [n]; the size is
    the same, the keys are the same ones (a permutation of the iteration
    sequence), and [contains] answers as before for every key. *)
Theorem rehash_preserves_membership (sizes : list Z) (s : HashSet) (n : Z) :
  table_fits sizes → table_ascending sizes → reachable sizes s →
  ∃ s', rehash sizes s n = Some s'
    ∧ size s' = size s
    ∧ keys s' ≡ₚ keys s
    ∧ ∀ key, is_int key → contains s' key = contains s key.
Proof.
  intros Hfit Hasc Hr.
  pose proof (reachable_Inv sizes Hfit Hasc s Hr) as HI.
  destruct (rehash_spec sizes Hfit s n HI)
    as (s' & Hre & HI' & Hkeys & Hcnt & _).
  exists s'. split_and!; try done.
  intros key Hk.
  rewrite (contains_spec sizes s' key HI' Hk), (contains_spec sizes s key HI Hk).
  f_equal. apply bool_decide_ext. by rewrite Hkeys.
Qed.

Lemma rehash_preserves_membership_witness :
  ∃ s', rehash sizes_7_17 seven_keys 18 = Some s'
    ∧ size s' = size seven_keys
    ∧ keys s' ≡ₚ keys seven_keys
    ∧ ∀ key, is_int key → contains s' key = contains seven_keys key.
Proof.
  apply (rehash_preserves_membership sizes_7_17 seven_keys 18).
  - apply sizes_7_17_fits.
  - apply sizes_7_17_ascending.
  - apply seven_keys_reachable.
Defined.

(** ** Iteration goes bucket by bucket *)

(** C3: in every state the public operations reach, a key met earlier in
    the iteration from [begin()] to [end()] has a bucket index that is not
    greater than that of a key met later, and the keys between two keys of
    one bucket belong to that bucket. *)
Theorem iteration_in_bucket_order (sizes : list Z) (s : HashSet) :
  table_fits sizes → table_ascending sizes → reachable sizes s →
  (∀ (i j : nat) x y,
     (i <= j)%nat → keys s !! i = Some x → keys s !! j = Some y →
     ∃ bx by_, bucket s x = Some bx ∧ bucket s y = Some by_ ∧ bx <= by_)
  ∧ (∀ (i m j : nat) x z y,
       (i <= m)%nat → (m <= j)%nat →
       keys s !! i = Some x → keys s !! m = Some z → keys s !! j = Some y →
       bucket s x = bucket s y → bucket s z = bucket s x).
Proof.
  intros Hfit Hasc Hr.
  pose proof (reachable_Inv sizes Hfit Hasc s Hr) as HI.
  assert (∀ (i : nat) x, keys s !! i = Some x →
            bucket s x = Some (x mod bucketCount s)) as Hbucket.
  { intros i x Hx. apply (Inv_bucket sizes s x HI).
    pose proof (inv_int sizes s HI) as Hint. rewrite Forall_forall in Hint.
    apply Hint. by eapply list_elem_of_lookup_2. }
  split.
  - intros i j x y Hij Hx Hy. eexists _, _.
    split_and!; [by eapply Hbucket..|].
    by eapply (Inv_sorted sizes s i j).
  - intros i m j x z y Him Hmj Hx Hz Hy.
    rewrite (Hbucket i x Hx), (Hbucket m z Hz), (Hbucket j y Hy).
    intros [= Hxy]. f_equal.
    pose proof (Inv_sorted sizes s i m x z HI Him Hx Hz).
    pose proof (Inv_sorted sizes s m j z y HI Hmj Hz Hy). lia.
Qed.

Lemma iteration_in_bucket_order_witness :
  (∀ (i j : nat) x y,
     (i <= j)%nat → keys seven_keys !! i = Some x →
     keys seven_keys !! j = Some y →
     ∃ bx by_, bucket seven_keys x = Some bx
               ∧ bucket seven_keys y = Some by_ ∧ bx <= by_)
  ∧ (∀ (i m j : nat) x z y,
       (i <= m)%nat → (m <= j)%nat →
       keys seven_keys !! i = Some x → keys seven_keys !! m = Some z →
       keys seven_keys !! j = Some y →
       bucket seven_keys x = bucket seven_keys y →
       bucket seven_keys z = bucket seven_keys x).
Proof.
  apply (iteration_in_bucket_order sizes_7_17 seven_keys).
  - apply sizes_7_17_fits.
  - apply sizes_7_17_ascending.
  - apply seven_keys_reachable.
Defined.

(** ** The bucket index *)

Lemma mod_sign_correction (c key : Z) :
  0 < c →
  key mod c
  = if decide (Z.rem key c < 0) then Z.rem key c + c else Z.rem key c.
Proof.
  intros Hc. pose proof (Z.quot_rem' key c) as Hqr.
  assert (Z.abs (Z.rem key c) < Z.abs c) as Hab
    by (apply Z.rem_bound_abs; lia).
  destruct (decide (Z.rem key c < 0)).
  - symmetry. apply (Z.mod_unique_pos key c (Z.quot key c - 1)); lia.
  - symmetry. apply (Z.mod_unique_pos key c (Z.quot key c)); lia.
Qed.

(** C4, as stated, fails: with [2^31 + 1] buckets the key [-1] has the raw
    remainder [-1]; adding the bucket count gives [2^31], which wraps when
    it is stored back in the [int], and the index returned is
    [2^64 - 2^31], outside the table. *)
Lemma bucket_index_out_of_range :
  bucket_of 2147483649 (-1) = Some 18446744071562067968
  ∧ ¬ (0 <= 18446744071562067968 < 2147483649).
Proof. split; [by vm_compute|lia]. Qed.

(** C4, amended: for every [int] key and every bucket count from 1 to
    [2^31], [bucket] returns the remainder of the key modulo the bucket
    count, in [[0, c)]: the raw remainder of [%], plus the bucket count when
    that remainder is negative.  With seven buckets, [bucket(-5)] is 2. *)
Theorem bucket_index (s : HashSet) (key : Z) :
  0 < bucketCount s <= 2 ^ 31 → is_int key →
  ∃ b, bucket s key = Some b
    ∧ 0 <= b < bucketCount s
    ∧ b = key mod bucketCount s
    ∧ b = (if decide (Z.rem key (bucketCount s) < 0)
           then Z.rem key (bucketCount s) + bucketCount s
           else Z.rem key (bucketCount s))
    ∧ (bucketCount s = 7 → bucket s (-5) = Some 2).
Proof.
  intros Hc Hk. exists (key mod bucketCount s). split_and!.
  - by apply bucket_of_ok.
  - apply Z.mod_pos_bound. lia.
  - apply Z.mod_pos_bound. lia.
  - done.
  - apply mod_sign_correction. lia.
  - intros H7. unfold bucket. by rewrite H7.
Qed.

Lemma bucket_index_witness :
  ∃ b, bucket fresh_7 (-5) = Some b
    ∧ 0 <= b < bucketCount fresh_7
    ∧ b = (-5) mod bucketCount fresh_7
    ∧ b = (if decide (Z.rem (-5) (bucketCount fresh_7) < 0)
           then Z.rem (-5) (bucketCount fresh_7) + bucketCount fresh_7
           else Z.rem (-5) (bucketCount fresh_7))
    ∧ (bucketCount fresh_7 = 7 → bucket fresh_7 (-5) = Some 2).
Proof.
  apply (bucket_index fresh_7 (-5)).
  - unfold bucketCount. simpl. lia.
  - unfold is_int. lia.
Defined.

(** ** The bucket count [rehash] picks *)

(** With an entry of the table that is not below the requested size,
    [rehash] leaves the first such entry as the bucket count and its index
    as the current index. *)
Lemma rehash_picks_first (sizes : list Z) (s : HashSet) (n : Z) (i : nat) m :
  table_fits sizes → table_ascending sizes → reachable sizes s →
  sizes !! i = Some m → n <= m →
  (∀ (j : nat) m', (j < i)%nat → sizes !! j = Some m' → m' < n) →
  ∃ s', rehash sizes s n = Some s'
    ∧ bucketCount s' = m ∧ currentPrimeIndex s' = Z.of_nat i.
Proof.
  intros Hfit Hasc Hr Hi Hle Hmin.
  pose proof (reachable_Inv sizes Hfit Hasc s Hr) as HI.
  destruct (rehash_spec sizes Hfit s n HI) as (s' & Hre & _ & _ & _ & _ & Ht).
  exists s'. split; [done|].
  destruct (pick_size n sizes 0) as [[m' j]|] eqn:Hp.
  - apply pick_size_Some in Hp as (k & -> & Hk & Hle' & Hmin').
    destruct Ht as [-> ->].
    destruct (Nat.lt_trichotomy k i) as [Hlt|[->|Hgt]].
    + pose proof (Hmin k m' Hlt Hk). lia.
    + rewrite Hi in Hk. injection Hk as ->. split; [done|lia].
    + pose proof (Hmin' i m Hgt Hi). lia.
  - apply pick_size_None in Hp. rewrite Forall_forall in Hp.
    pose proof (Hp m (list_elem_of_lookup_2 _ _ _ Hi)). lia.
Qed.

(** C5: the code departs from the specification when no entry of the table
    reaches the requested size.  A fresh container on the table [[7; 17]] has 17
    buckets after [rehash(18)], and the current index is still 0, the index
    of the entry 7.  With the table [[7; 17; 37]], [rehash(100)] leaves 37
    buckets at index 0, and the insert that next finds the load factor above
    the maximum "grows" the table to the entry at index 1, 17 buckets. *)
Theorem rehash_fallback_keeps_index :
  (s0 ← HashSet_new sizes_7_17;
   s ← rehash sizes_7_17 s0 18;
   Some (bucketCount s, currentPrimeIndex s,
         sizes_7_17 !! Z.to_nat (currentPrimeIndex s)))
  = Some (17, 0, Some 7)
  ∧ (s0 ← HashSet_new sizes_7_17_37;
     s ← rehash sizes_7_17_37 s0 100;
     s' ← insert_all sizes_7_17_37 s (seqZ 0 39);
     Some (bucketCount s, currentPrimeIndex s,
           bucketCount s', currentPrimeIndex s'))
    = Some (37, 0, 17, 1).
Proof. split; by vm_compute. Qed.

(** ** Inserting twice *)

(** C6: an insert of a key that [contains] finds returns the container as
    it was, so the size and the iteration sequence are the same; and after
    any sequence of inserts into a new container the size is the number of
    distinct keys of the sequence. *)
Theorem insert_idempotent (sizes : list Z) :
  table_fits sizes → table_ascending sizes →
  (∀ s key,
     reachable sizes s → is_int key → contains s key = Some true →
     insert sizes s key = Some s)
  ∧ (∀ s0 ks,
       HashSet_new sizes = Some s0 → Forall is_int ks →
       ∃ s, insert_all sizes s0 ks = Some s
         ∧ size s = Z.of_nat (length (remove_dups ks))).
Proof.
  intros Hfit Hasc. split.
  - intros s key Hr Hk Hc.
    pose proof (reachable_Inv sizes Hfit Hasc s Hr) as HI.
    apply (insert_present sizes s key HI Hk).
    by apply (contains_true sizes).
  - intros s0 ks Hnew Hks.
    destruct (insert_all_size sizes Hfit Hasc s0 ks Hnew Hks)
      as (s & Hall & _ & Hsize).
    by exists s.
Qed.

Lemma insert_idempotent_witness :
  insert sizes_7_17 seven_keys 15 = Some seven_keys
  ∧ ∃ s, insert_all sizes_7_17 fresh_7 [1; 2; 1; 3; 2] = Some s
      ∧ size s = 3.
Proof.
  destruct (insert_idempotent sizes_7_17 sizes_7_17_fits sizes_7_17_ascending)
    as [Hsame Hsize].
  split.
  - apply Hsame.
    + apply seven_keys_reachable.
    + unfold is_int. lia.
    + by vm_compute.
  - apply (Hsize fresh_7 [1; 2; 1; 3; 2]).
    + reflexivity.
    + repeat constructor; lia.
Defined.

(** ** Insert, then erase *)

(** C7: from every state, [insert(k)] returns and [contains(k)] is true
    right after it; [erase(k)] then returns and [contains(k)] is false. *)
Theorem insert_erase_round_trip (sizes : list Z) (s : HashSet) (key : Z) :
  table_fits sizes → table_ascending sizes →
  reachable sizes s → is_int key →
  ∃ s1, insert sizes s key = Some s1
    ∧ contains s1 key = Some true
    ∧ ∃ s2, erase s1 key = Some s2 ∧ contains s2 key = Some false.
Proof.
  intros Hfit Hasc Hr Hk.
  pose proof (reachable_Inv sizes Hfit Hasc s Hr) as HI.
  assert (∃ s1, insert sizes s key = Some s1 ∧ Inv sizes s1 ∧ key ∈ keys s1)
    as (s1 & Hins & HI1 & Hin).
  { destruct (decide (key ∈ keys s)) as [Hin|Hnot].
    - exists s. split_and!; [|done..]. by apply insert_present.
    - destruct (insert_absent sizes Hfit Hasc s key HI Hk Hnot)
        as (s1 & Hins & HI1 & Hkeys & _).
      exists s1. split_and!; [done..|]. rewrite Hkeys. left. }
  exists s1. split_and!; [done| |].
  - rewrite (contains_spec sizes s1 key HI1 Hk).
    by rewrite bool_decide_eq_true_2.
  - destruct (erase_present sizes s1 key HI1 Hk Hin)
      as (s2 & Her & HI2 & Hkeys & _).
    exists s2. split; [done|].
    rewrite (contains_spec sizes s2 key HI2 Hk).
    rewrite bool_decide_eq_false_2; [done|].
    pose proof (inv_keys sizes s1 HI1) as Hnd. rewrite Hkeys in Hnd.
    by apply NoDup_cons in Hnd as [? _].
Qed.

Lemma insert_erase_round_trip_witness :
  ∃ s1, insert sizes_7_17 seven_keys 9 = Some s1
    ∧ contains s1 9 = Some true
    ∧ ∃ s2, erase s1 9 = Some s2 ∧ contains s2 9 = Some false.
Proof.
  apply (insert_erase_round_trip sizes_7_17 seven_keys 9).
  - apply sizes_7_17_fits.
  - apply sizes_7_17_ascending.
  - apply seven_keys_reachable.
  - unfold is_int. lia.
Defined.

(** ** Lowering the maximum load factor *)



(** The scenario of the specification: with seven keys in seven buckets
    the maximum 0.5 asks for the 17 buckets of the next entry, and the
    maximum 0.25, which no entry reaches, leaves the seven buckets. *)
Example set_maxLoadFactor_scenario :
  (s ← set_maxLoadFactor sizes_7_17 seven_keys
         (fdiv (float_of 1) (float_of 2));
   s' ← set_maxLoadFactor sizes_7_17 seven_keys
          (fdiv (float_of 1) (float_of 4));
   Some (bucketCount s, size s, bucketCount s', size s',
         fle (loadFactor s') (maxLoadFactor s')))
  = Some (17, 7, 7, 7, false).
Proof. by vm_compute. Qed.

(** ** Erasing a key that is not there *)

(** C9: from every state, [erase] of a key that [contains] does not find
    returns the container as it was: the size, the iteration sequence and
    the bucket table are the same. *)
Theorem erase_absent_is_no_op (sizes : list Z) (s : HashSet) (key : Z) :
  table_fits sizes → table_ascending sizes →
  reachable sizes s → is_int key → contains s key = Some false →
  erase s key = Some s.
Proof.
  intros Hfit Hasc Hr Hk Hc.
  pose proof (reachable_Inv sizes Hfit Hasc s Hr) as HI.
  apply (erase_absent sizes s key HI Hk).
  by apply (contains_false sizes).
Qed.

Lemma erase_absent_is_no_op_witness : erase seven_keys 100 = Some seven_keys.
Proof.
  apply (erase_absent_is_no_op sizes_7_17 seven_keys 100).
  - apply sizes_7_17_fits.
  - apply sizes_7_17_ascending.
  - apply seven_keys_reachable.
  - unfold is_int. lia.
  - by vm_compute.
Defined.

(** ** Growth goes one entry at a time *)




(** ** The first scenario of the specification *)

Example scenario_insert_1_2_3 :
  (s0 ← HashSet_new sizes_7_17;
   s ← insert_all sizes_7_17 s0 [1; 2; 3];
   c2 ← contains s 2;
   c9 ← contains s 9;
   Some (bucketCount s, size s, c2, c9, keys s))
  = Some (7, 3, true, false, [1; 2; 3]).
Proof. by vm_compute. Qed.

(** * Further properties of the code *)

(** ** No operation leaves defined behaviour *)

(** X1: from every state that the constructor, the copy constructor,
    [insert], the two [erase], [rehash] and the setter of the maximum load
    factor reach, every one of these operations and of the queries returns:
    no index is out of range, no iterator dangles, no remainder is taken by
    zero and no distance is asked between unrelated iterators. *)
Theorem operations_are_defined (sizes : list Z) (s : HashSet) (key : Z) :
  table_fits sizes → table_ascending sizes →
  reachable sizes s → is_int key →
  is_Some (bucket s key)
  ∧ is_Some (contains s key)
  ∧ is_Some (find s key)
  ∧ is_Some (insert sizes s key)
  ∧ is_Some (erase s key)
  ∧ (∀ n, is_Some (rehash sizes s n))
  ∧ (∀ maxLoad, is_Some (set_maxLoadFactor sizes s maxLoad))
  ∧ (∀ b, 0 <= b → is_Some (bucketSize s b))
  ∧ is_Some (HashSet_copy s).
Proof.
  intros Hfit Hasc Hr Hk.
  pose proof (reachable_Inv sizes Hfit Hasc s Hr) as HI.
  split_and!.
  - rewrite (Inv_bucket sizes s key HI Hk). by eexists.
  - rewrite (contains_spec sizes s key HI Hk). by eexists.
  - destruct (decide (key ∈ keys s)) as [Hin|Hnot].
    + unfold keys in Hin.
      apply list_elem_of_fmap in Hin as ([n k] & -> & Hin). simpl in *.
      rewrite (find_hit sizes s n k HI Hk Hin). by eexists.
    + rewrite (find_miss sizes s key HI Hk Hnot). by eexists.
  - destruct (decide (key ∈ keys s)) as [Hin|Hnot].
    + rewrite (insert_present sizes s key HI Hk Hin). by eexists.
    + destruct (insert_absent sizes Hfit Hasc s key HI Hk Hnot) as (s' & -> & _).
      by eexists.
  - destruct (decide (key ∈ keys s)) as [Hin|Hnot].
    + destruct (erase_present sizes s key HI Hk Hin) as (s' & -> & _).
      by eexists.
    + rewrite (erase_absent sizes s key HI Hk Hnot). by eexists.
  - intros n. destruct (rehash_spec sizes Hfit s n HI) as (s' & -> & _).
    by eexists.
  - intros maxLoad.
    destruct (set_maxLoadFactor_Inv sizes Hfit s maxLoad HI) as (s' & -> & _).
    by eexists.
  - intros b Hb. rewrite (bucketSize_spec sizes s b HI Hb). by eexists.
  - rewrite (copy_spec sizes s HI). by eexists.
Qed.

Lemma operations_are_defined_witness :
  is_Some (bucket seven_keys (-7))
  ∧ is_Some (contains seven_keys (-7))
  ∧ is_Some (find seven_keys (-7))
  ∧ is_Some (insert sizes_7_17 seven_keys (-7))
  ∧ is_Some (erase seven_keys (-7))
  ∧ (∀ n, is_Some (rehash sizes_7_17 seven_keys n))
  ∧ (∀ maxLoad, is_Some (set_maxLoadFactor sizes_7_17 seven_keys maxLoad))
  ∧ (∀ b, 0 <= b → is_Some (bucketSize seven_keys b))
  ∧ is_Some (HashSet_copy seven_keys).
Proof.
  apply (operations_are_defined sizes_7_17 seven_keys (-7)).
  - apply sizes_7_17_fits.
  - apply sizes_7_17_ascending.
  - apply seven_keys_reachable.
  - unfold is_int. lia.
Defined.

(** ** The keys and their count *)

(** X2: in every reachable state no key is met twice in the iteration,
    every key is an [int], [size()] is the number of keys met, [empty()]
    says whether there is none, and [begin()] is [end()] exactly then. *)
Theorem keys_are_distinct_and_counted (sizes : list Z) (s : HashSet) :
  table_fits sizes → table_ascending sizes → reachable sizes s →
  NoDup (keys s)
  ∧ Forall is_int (keys s)
  ∧ size s = Z.of_nat (length (keys s))
  ∧ (empty s = true ↔ keys s = [])
  ∧ (begin s = End ↔ keys s = []).
Proof.
  intros Hfit Hasc Hr.
  pose proof (reachable_Inv sizes Hfit Hasc s Hr) as HI.
  pose proof (inv_count sizes s HI) as Hcount.
  assert (size s = Z.of_nat (length (keys s))) as Hsize.
  { unfold size, keys. by rewrite length_fmap. }
  split_and!; try done.
  - by destruct HI.
  - by destruct HI.
  - unfold empty. rewrite bool_decide_eq_true. unfold size in Hsize.
    rewrite Hsize. split.
    + intros H0. apply length_zero_iff_nil. lia.
    + by intros ->.
  - unfold begin, keys. destruct (allKeys s); simpl; split; done.
Qed.

Lemma keys_are_distinct_and_counted_witness :
  NoDup (keys seven_keys)
  ∧ Forall is_int (keys seven_keys)
  ∧ size seven_keys = Z.of_nat (length (keys seven_keys))
  ∧ (empty seven_keys = true ↔ keys seven_keys = [])
  ∧ (begin seven_keys = End ↔ keys seven_keys = []).
Proof.
  apply (keys_are_distinct_and_counted sizes_7_17 seven_keys).
  - apply sizes_7_17_fits.
  - apply sizes_7_17_ascending.
  - apply seven_keys_reachable.
Defined.

(** ** Lookup *)

(** X3: [contains(key)] is true exactly for the keys the iteration meets. *)
Theorem contains_iff_iterated (sizes : list Z) (s : HashSet) (key : Z) :
  table_fits sizes → table_ascending sizes →
  reachable sizes s → is_int key →
  contains s key = Some (bool_decide (key ∈ keys s)).
Proof.
  intros Hfit Hasc Hr Hk.
  apply (contains_spec sizes); [|done]. by apply reachable_Inv.
Qed.

Lemma contains_iff_iterated_witness :
  contains seven_keys 22 = Some (bool_decide (22 ∈ keys seven_keys)).
Proof.
  apply (contains_iff_iterated sizes_7_17 seven_keys 22).
  - apply sizes_7_17_fits.
  - apply sizes_7_17_ascending.
  - apply seven_keys_reachable.
  - unfold is_int. lia.
Defined.

(** X4: [find(key)] returns [end()] exactly when [contains(key)] is false,
    and an iterator it returns otherwise is valid and points at the key. *)
Theorem find_points_at_key (sizes : list Z) (s : HashSet) (key : Z) :
  table_fits sizes → table_ascending sizes →
  reachable sizes s → is_int key →
  ∃ it, find s key = Some it
    ∧ (it = End ↔ contains s key = Some false)
    ∧ (it ≠ End →
       ∃ n rest, it = At n ∧ from (allKeys s) it = Some ((n, key) :: rest)).
Proof.
  intros Hfit Hasc Hr Hk.
  pose proof (reachable_Inv sizes Hfit Hasc s Hr) as HI.
  rewrite (contains_spec sizes s key HI Hk).
  destruct (decide (key ∈ keys s)) as [Hin|Hnot].
  - pose proof Hin as Hin'. unfold keys in Hin'.
    apply list_elem_of_fmap in Hin' as ([n k] & -> & Hin'). simpl in *.
    exists (At n). rewrite (find_hit sizes s n k HI Hk Hin').
    rewrite bool_decide_eq_true_2 by done. split_and!; try done.
    intros _. destruct (seek_node n k (allKeys s) (inv_ids sizes s HI) Hin')
      as [rest Hrest].
    by exists n, rest.
  - exists End. rewrite (find_miss sizes s key HI Hk Hnot).
    rewrite bool_decide_eq_false_2 by done. split_and!; done.
Qed.

Lemma find_points_at_key_witness :
  ∃ it, find seven_keys 22 = Some it
    ∧ (it = End ↔ contains seven_keys 22 = Some false)
    ∧ (it ≠ End →
       ∃ n rest, it = At n
                 ∧ from (allKeys seven_keys) it = Some ((n, 22) :: rest)).
Proof.
  apply (find_points_at_key sizes_7_17 seven_keys 22).
  - apply sizes_7_17_fits.
  - apply sizes_7_17_ascending.
  - apply seven_keys_reachable.
  - unfold is_int. lia.
Defined.

(** ** The bucket table *)

(** X5: in every reachable state the iterator of bucket [b] is the one to
    the first node of the list whose key has bucket index [b], and the end
    of the list when no key has; it is the end exactly when [bucketSize(b)]
    is zero. *)
Theorem bucket_iterator_is_run_head (sizes : list Z) (s : HashSet) (b : Z) :
  table_fits sizes → table_ascending sizes →
  reachable sizes s → 0 <= b < bucketCount s →
  ∃ it, buckets s !! Z.to_nat b = Some it
    ∧ it = head_it (filter (λ x : Node, x.2 mod bucketCount s = b)
                      (allKeys s))
    ∧ (it = End ↔ bucketSize s b = Some 0).
Proof.
  intros Hfit Hasc Hr Hb.
  pose proof (reachable_Inv sizes Hfit Hasc s Hr) as HI.
  eexists. split; [by apply (Inv_heads sizes)|]. split; [done|].
  rewrite (bucketSize_spec sizes s b HI) by lia.
  unfold keys. rewrite filter_keys_length.
  destruct (filter _ (allKeys s)); simpl; split; done.
Qed.

Lemma bucket_iterator_is_run_head_witness :
  ∃ it, buckets seven_keys !! Z.to_nat 1 = Some it
    ∧ it = head_it (filter (λ x : Node, x.2 mod bucketCount seven_keys = 1)
                      (allKeys seven_keys))
    ∧ (it = End ↔ bucketSize seven_keys 1 = Some 0).
Proof.
  apply (bucket_iterator_is_run_head sizes_7_17 seven_keys 1).
  - apply sizes_7_17_fits.
  - apply sizes_7_17_ascending.
  - apply seven_keys_reachable.
  - by vm_compute.
Defined.

(** X6: [bucketSize(b)] is, for every [b], the number of keys of the set
    whose bucket index is [b]; it is zero for an index that is no
    bucket's, and the sizes of all buckets add up to [size()]. *)
Theorem bucketSize_counts_bucket (sizes : list Z) (s : HashSet) (b : Z) :
  table_fits sizes → table_ascending sizes →
  reachable sizes s → 0 <= b →
  bucketSize s b
  = Some (Z.of_nat (length (filter (λ k, k mod bucketCount s = b) (keys s))))
  ∧ (bucketCount s <= b → bucketSize s b = Some 0)
  ∧ size s
    = Z.of_nat
        (length (concat ((λ b' : nat,
                            filter (λ k, k mod bucketCount s = Z.of_nat b')
                              (keys s))
                         <$> seq 0 (Z.to_nat (bucketCount s))))).
Proof.
  intros Hfit Hasc Hr Hb.
  pose proof (reachable_Inv sizes Hfit Hasc s Hr) as HI.
  split_and!.
  - by apply (bucketSize_spec sizes).
  - intros Hge. unfold bucketSize. by rewrite decide_True.
  - unfold size. rewrite (inv_count sizes s HI).
    replace (Z.to_nat (bucketCount s)) with (length (buckets s))
      by (unfold bucketCount; lia).
    unfold keys. rewrite <- keys_by_bucket, length_fmap.
    by rewrite (Inv_concat_filter sizes s HI).
Qed.

Lemma bucketSize_counts_bucket_witness :
  bucketSize seven_keys 1
  = Some (Z.of_nat (length (filter (λ k, k mod bucketCount seven_keys = 1)
                              (keys seven_keys))))
  ∧ (bucketCount seven_keys <= 1 → bucketSize seven_keys 1 = Some 0)
  ∧ size seven_keys
    = Z.of_nat
        (length (concat ((λ b' : nat,
                            filter (λ k, k mod bucketCount seven_keys
                                         = Z.of_nat b')
                              (keys seven_keys))
                         <$> seq 0 (Z.to_nat (bucketCount seven_keys))))).
Proof.
  apply (bucketSize_counts_bucket sizes_7_17 seven_keys 1).
  - apply sizes_7_17_fits.
  - apply sizes_7_17_ascending.
  - apply seven_keys_reachable.
  - lia.
Defined.

(** X7: in every reachable state the bucket count is an entry of the Sizing
    Table, so it is never zero and [loadFactor()] never takes its branch for
    no buckets: it is the quotient of the two conversions to [float]; the
    current index is an index of the table. *)
Theorem bucket_count_is_table_entry (sizes : list Z) (s : HashSet) :
  table_fits sizes → table_ascending sizes → reachable sizes s →
  bucketCount s ∈ sizes
  ∧ 0 < bucketCount s
  ∧ 0 <= currentPrimeIndex s < Z.of_nat (length sizes)
  ∧ loadFactor s = fdiv (float_of (size s)) (float_of (bucketCount s)).
Proof.
  intros Hfit Hasc Hr.
  destruct (reachable_Inv sizes Hfit Hasc s Hr) as [Hfits Htable Hidx _ _ _ _ _ _].
  split_and!; try done; try lia.
  unfold loadFactor. by rewrite decide_True by lia.
Qed.

Lemma bucket_count_is_table_entry_witness :
  bucketCount seven_keys ∈ sizes_7_17
  ∧ 0 < bucketCount seven_keys
  ∧ 0 <= currentPrimeIndex seven_keys < Z.of_nat (length sizes_7_17)
  ∧ loadFactor seven_keys
    = fdiv (float_of (size seven_keys)) (float_of (bucketCount seven_keys)).
Proof.
  apply (bucket_count_is_table_entry sizes_7_17 seven_keys).
  - apply sizes_7_17_fits.
  - apply sizes_7_17_ascending.
  - apply seven_keys_reachable.
Defined.

(** ** Erasure *)

Lemma erase_by_key_is_erase_it (s : HashSet) (n : nat) (key : Z) s' :
  find s key = Some (At n) → erase s key = Some s' →
  ∃ next, erase_it s (At n) = Some (s', next).
Proof.
  unfold erase. intros -> He. cbn -[erase_it] in He.
  destruct (erase_it s (At n)) as [[s'' next]|]; [|done].
  simpl in He. injection He as ->. by exists next.
Qed.

(** X8: [erase(key)] returns with exactly that key gone: the other keys are
    met in the order they had, the count has gone down by one when the key
    was there, and the bucket count, the current index and the maximum load
    factor are the same (no bucket is given up). *)
Theorem erase_removes_only_the_key (sizes : list Z) (s : HashSet) (key : Z) :
  table_fits sizes → table_ascending sizes →
  reachable sizes s → is_int key →
  ∃ s', erase s key = Some s'
    ∧ keys s' = filter (λ k, k ≠ key) (keys s)
    ∧ size s' = size s - (if bool_decide (key ∈ keys s) then 1 else 0)
    ∧ bucketCount s' = bucketCount s
    ∧ currentPrimeIndex s' = currentPrimeIndex s
    ∧ maxLoadFactor s' = maxLoadFactor s.
Proof.
  intros Hfit Hasc Hr Hk.
  pose proof (reachable_Inv sizes Hfit Hasc s Hr) as HI.
  destruct (decide (key ∈ keys s)) as [Hin|Hnot].
  - destruct (erase_present sizes s key HI Hk Hin)
      as (s' & Her & HI' & _ & Hcnt & Hbc & Hidx & Hmax).
    exists s'. rewrite bool_decide_eq_true_2 by done.
    split_and!; try done.
    pose proof Hin as Hin'. unfold keys in Hin'.
    apply list_elem_of_fmap in Hin' as ([n k] & -> & Hin'). simpl in *.
    pose proof (find_hit sizes s n k HI Hk Hin') as Hfind.
    destruct (erase_by_key_is_erase_it s n k s' Hfind Her) as [next He].
    destruct (erase_it_shape s n s' next He)
      as (l1 & k' & l2 & Hall & Hn & Hall' & _).
    pose proof (inv_ids sizes s HI) as Hids.
    pose proof (inv_keys sizes s HI) as Hkeys.
    assert (k' = k) as ->.
    { rewrite Hall in Hin', Hids.
      rewrite fmap_app, fmap_cons in Hids.
      apply NoDup_app in Hids as (_ & _ & Hids).
      apply NoDup_cons in Hids as [Hn2 _]. simpl in Hn2.
      apply elem_of_app in Hin' as [Hin'|Hin'].
      - destruct Hn. by apply (list_elem_of_fmap_2 fst) in Hin'.
      - apply elem_of_cons in Hin' as [[= ->]|Hin']; [done|].
        destruct Hn2. by apply (list_elem_of_fmap_2 fst) in Hin'. }
    unfold keys in *. rewrite Hall', Hall in *.
    rewrite !fmap_app, fmap_cons in *. simpl in *.
    apply NoDup_app in Hkeys as (_ & Hd & Hkeys).
    apply NoDup_cons in Hkeys as [Hk2 _].
    rewrite filter_ne_middle; [done| |done].
    intros Hk1. apply (Hd _ Hk1). left.
  - exists s. rewrite (erase_absent sizes s key HI Hk Hnot).
    rewrite bool_decide_eq_false_2 by done.
    rewrite filter_ne_absent by done. split_and!; try done. lia.
Qed.

Lemma erase_removes_only_the_key_witness :
  ∃ s', erase seven_keys 15 = Some s'
    ∧ keys s' = filter (λ k, k ≠ 15) (keys seven_keys)
    ∧ size s' = size seven_keys
                - (if bool_decide (15 ∈ keys seven_keys) then 1 else 0)
    ∧ bucketCount s' = bucketCount seven_keys
    ∧ currentPrimeIndex s' = currentPrimeIndex seven_keys
    ∧ maxLoadFactor s' = maxLoadFactor seven_keys.
Proof.
  apply (erase_removes_only_the_key sizes_7_17 seven_keys 15).
  - apply sizes_7_17_fits.
  - apply sizes_7_17_ascending.
  - apply seven_keys_reachable.
  - unfold is_int. lia.
Defined.

(** X9: [erase(it)] for an iterator to a node of the list returns the
    iterator to the node's successor (the end of the list after the last
    node); the nodes before and after keep their places, and [size()] has
    gone down by one.  For the end of the list it returns it and changes
    nothing. *)
Theorem erase_iterator_returns_successor (sizes : list Z) (s : HashSet)
    (n : nat) (k : Z) (l1 l2 : list Node) :
  table_fits sizes → table_ascending sizes → reachable sizes s →
  allKeys s = l1 ++ (n, k) :: l2 →
  (∃ s', erase_it s (At n) = Some (s', head_it l2)
     ∧ allKeys s' = l1 ++ l2
     ∧ size s' = size s - 1
     ∧ bucketCount s' = bucketCount s
     ∧ reachable sizes s')
  ∧ erase_it s End = Some (s, End).
Proof.
  intros Hfit Hasc Hr Hall. split; [|done].
  pose proof (reachable_Inv sizes Hfit Hasc s Hr) as HI.
  destruct (erase_it_spec sizes s n k HI)
    as (s' & next & He & HI' & _ & Hcnt & Hbc & _).
  { rewrite Hall. apply elem_of_app. right. left. }
  destruct (erase_it_shape s n s' next He)
    as (l1' & k' & l2' & Hall' & Hn' & Hall'' & -> & _).
  assert (n ∉ l1.*1) as Hn.
  { apply (NoDup_ids_head l1 (n, k) l2). rewrite <- Hall. by destruct HI. }
  rewrite Hall in Hall'.
  destruct (split_at_node n k k' l1 l2 l1' l2' Hn Hn' Hall') as (-> & -> & ->).
  exists s'. split_and!; try done.
  by eapply reach_erase_it.
Qed.

Lemma erase_iterator_returns_successor_witness :
  (∃ s', erase_it seven_keys (At 1) = Some (s', head_it [(3%nat, 15); (6%nat, 22); (2%nat, -5); (4%nat, 3)])
     ∧ allKeys s' = [(5%nat, -7); (0%nat, 8)]
                    ++ [(3%nat, 15); (6%nat, 22); (2%nat, -5); (4%nat, 3)]
     ∧ size s' = size seven_keys - 1
     ∧ bucketCount s' = bucketCount seven_keys
     ∧ reachable sizes_7_17 s')
  ∧ erase_it seven_keys End = Some (seven_keys, End).
Proof.
  apply (erase_iterator_returns_successor sizes_7_17 seven_keys 1 1
           [(5%nat, -7); (0%nat, 8)]
           [(3%nat, 15); (6%nat, 22); (2%nat, -5); (4%nat, 3)]).
  - apply sizes_7_17_fits.
  - apply sizes_7_17_ascending.
  - apply seven_keys_reachable.
  - reflexivity.
Defined.

(** ** Where an insert puts the key *)

(** X10: an insert of a new key that does not grow the table puts the key
    at the end of the run of its bucket: the keys met before keep their
    order and have bucket indexes that are not greater, the keys met after
    it keep their order and have greater bucket indexes. *)
Theorem insert_appends_to_run (sizes : list Z) (s : HashSet) (key : Z) :
  table_fits sizes → table_ascending sizes →
  reachable sizes s → is_int key →
  contains s key = Some false → grows sizes s = false →
  ∃ s' l1 l2,
    insert sizes s key = Some s'
    ∧ keys s = l1 ++ l2
    ∧ keys s' = l1 ++ key :: l2
    ∧ Forall (λ k, k mod bucketCount s <= key mod bucketCount s) l1
    ∧ Forall (λ k, key mod bucketCount s < k mod bucketCount s) l2
    ∧ bucketCount s' = bucketCount s.
Proof.
  intros Hfit Hasc Hr Hk Hc Hg.
  pose proof (reachable_Inv sizes Hfit Hasc s Hr) as HI.
  pose proof (contains_false sizes s key HI Hk Hc) as Hnot.
  destruct (place_shape sizes s key HI Hk Hnot)
    as (s' & l1 & l2 & Hplace & _ & Hall & Hall' & Hl1 & Hl2 & Hbc & _).
  exists s', l1.*2, l2.*2. split_and!; try done.
  - unfold insert. rewrite Hc. simpl. by rewrite Hg.
  - unfold keys. by rewrite Hall, fmap_app.
  - unfold keys. by rewrite Hall', fmap_app.
  - by apply Forall_fmap.
  - by apply Forall_fmap.
Qed.

Lemma insert_appends_to_run_witness :
  ∃ s' l1 l2,
    insert sizes_7_17 seven_keys 9 = Some s'
    ∧ keys seven_keys = l1 ++ l2
    ∧ keys s' = l1 ++ 9 :: l2
    ∧ Forall (λ k, k mod bucketCount seven_keys
                   <= 9 mod bucketCount seven_keys) l1
    ∧ Forall (λ k, 9 mod bucketCount seven_keys
                   < k mod bucketCount seven_keys) l2
    ∧ bucketCount s' = bucketCount seven_keys.
Proof.
  apply (insert_appends_to_run sizes_7_17 seven_keys 9).
  - apply sizes_7_17_fits.
  - apply sizes_7_17_ascending.
  - apply seven_keys_reachable.
  - unfold is_int. lia.
  - by vm_compute.
  - by vm_compute.
Defined.

(** X11: the test [std::distance(buckets[b], newIt) < 0] of [insert] never
    holds: in any state, an insert of a new key that does not grow the
    table and returns has set the iterator of the key's bucket to the new
    node when the bucket was empty, and has left the bucket table as it was
    otherwise. *)
Theorem insert_keeps_bucket_heads (sizes : list Z) (s : HashSet) (key : Z)
    (s' : HashSet) :
  contains s key = Some false → grows sizes s = false →
  insert sizes s key = Some s' →
  ∃ b hb,
    bucket s key = Some b
    ∧ buckets s !! Z.to_nat b = Some hb
    ∧ buckets s' = (if decide (hb = End)
                    then <[Z.to_nat b := At (nextNode s)]> (buckets s)
                    else buckets s).
Proof.
  intros Hc Hg Hins. unfold insert in Hins. rewrite Hc in Hins.
  simpl in Hins. rewrite Hg in Hins. simpl in Hins. unfold place in Hins.
  destruct (bucket s key) as [b|] eqn:Hb; [|done]. simpl in Hins.
  destruct (buckets s !! Z.to_nat b) as [hb|] eqn:Hhb; [|done].
  simpl in Hins.
  exists b, hb. split; [done|]. split; [done|].
  destruct (if decide (hb ≠ End) then _ else _) as [pos|]; [|done].
  simpl in Hins.
  destruct (insert_before pos (nextNode s, key) (allKeys s)) as [all|];
    [|done].
  simpl in Hins.
  destruct (decide (hb = End)) as [He|Hne].
  - simpl in Hins. by injection Hins as <-.
  - destruct (distance all hb (At (nextNode s))) as [d|] eqn:Hd; [|done].
    simpl in Hins. unfold distance in Hd.
    destruct (from all hb) as [rest|]; [|done]. simpl in Hd.
    apply steps_to_nonneg in Hd.
    rewrite bool_decide_eq_false_2 in Hins by lia.
    by injection Hins as <-.
Qed.

Lemma insert_keeps_bucket_heads_witness :
  ∃ b hb,
    bucket seven_keys 9 = Some b
    ∧ buckets seven_keys !! Z.to_nat b = Some hb
    ∧ buckets seven_keys_and_9
      = (if decide (hb = End)
         then <[Z.to_nat b := At (nextNode seven_keys)]> (buckets seven_keys)
         else buckets seven_keys).
Proof.
  apply (insert_keeps_bucket_heads sizes_7_17 seven_keys 9 seven_keys_and_9).
  - by vm_compute.
  - by vm_compute.
  - by vm_compute.
Defined.

(** ** How insert and erase compose *)

(** X12: an insert and an erase of one key do not change what [contains]
    answers for any other key. *)
Theorem other_keys_are_untouched (sizes : list Z) (s : HashSet)
    (key key' : Z) :
  table_fits sizes → table_ascending sizes →
  reachable sizes s → is_int key → is_int key' → key' ≠ key →
  ∃ s1 s2,
    insert sizes s key = Some s1 ∧ contains s1 key' = contains s key'
    ∧ erase s key = Some s2 ∧ contains s2 key' = contains s key'.
Proof.
  intros Hfit Hasc Hr Hk Hk' Hne.
  pose proof (reachable_Inv sizes Hfit Hasc s Hr) as HI.
  assert (∃ s1, insert sizes s key = Some s1 ∧ Inv sizes s1
                ∧ (key' ∈ keys s1 ↔ key' ∈ keys s)) as (s1 & Hins & HI1 & H1).
  { destruct (decide (key ∈ keys s)) as [Hin|Hnot].
    - exists s. split_and!; [|done..]. by apply insert_present.
    - destruct (insert_absent sizes Hfit Hasc s key HI Hk Hnot)
        as (s1 & Hins & HI1 & Hkeys & _).
      exists s1. split_and!; [done..|].
      rewrite Hkeys, elem_of_cons. tauto. }
  assert (∃ s2, erase s key = Some s2 ∧ Inv sizes s2
                ∧ (key' ∈ keys s2 ↔ key' ∈ keys s)) as (s2 & Her & HI2 & H2).
  { destruct (decide (key ∈ keys s)) as [Hin|Hnot].
    - destruct (erase_present sizes s key HI Hk Hin)
        as (s2 & Her & HI2 & Hkeys & _).
      exists s2. split_and!; [done..|].
      rewrite Hkeys, elem_of_cons. tauto.
    - exists s. split_and!; [|done..]. by apply (erase_absent sizes). }
  exists s1, s2.
  rewrite (contains_spec sizes s1 key' HI1 Hk').
  rewrite (contains_spec sizes s2 key' HI2 Hk').
  rewrite (contains_spec sizes s key' HI Hk').
  split_and!; try done; f_equal; by apply bool_decide_ext.
Qed.

Lemma other_keys_are_untouched_witness :
  ∃ s1 s2,
    insert sizes_7_17 seven_keys 9 = Some s1
    ∧ contains s1 15 = contains seven_keys 15
    ∧ erase seven_keys 9 = Some s2
    ∧ contains s2 15 = contains seven_keys 15.
Proof.
  apply (other_keys_are_untouched sizes_7_17 seven_keys 9 15).
  - apply sizes_7_17_fits.
  - apply sizes_7_17_ascending.
  - apply seven_keys_reachable.
  - unfold is_int. lia.
  - unfold is_int. lia.
  - lia.
Defined.

(** X13: an insert of a new key followed by the erase of that key gives the
    set back: the size, the keys and the maximum load factor are the same;
    and when the insert did not grow the table, the list, node for node,
    the bucket table and the current index are the same as well. *)
Theorem insert_then_erase_restores (sizes : list Z) (s : HashSet) (key : Z) :
  table_fits sizes → table_ascending sizes →
  reachable sizes s → is_int key → contains s key = Some false →
  ∃ s1 s2,
    insert sizes s key = Some s1 ∧ erase s1 key = Some s2
    ∧ size s2 = size s
    ∧ keys s2 ≡ₚ keys s
    ∧ maxLoadFactor s2 = maxLoadFactor s
    ∧ (grows sizes s = false →
       allKeys s2 = allKeys s ∧ buckets s2 = buckets s
       ∧ currentPrimeIndex s2 = currentPrimeIndex s
       ∧ bucketCount s2 = bucketCount s).
Proof.
  intros Hfit Hasc Hr Hk Hc.
  pose proof (reachable_Inv sizes Hfit Hasc s Hr) as HI.
  pose proof (contains_false sizes s key HI Hk Hc) as Hnot.
  destruct (insert_absent sizes Hfit Hasc s key HI Hk Hnot)
    as (s1 & Hins & HI1 & Hkeys1 & Hcnt1 & Hmax1 & _).
  assert (key ∈ keys s1) as Hin1 by (rewrite Hkeys1; left).
  destruct (erase_present sizes s1 key HI1 Hk Hin1)
    as (s2 & Her & HI2 & Hkeys2 & Hcnt2 & Hbc2 & Hidx2 & Hmax2).
  exists s1, s2. unfold size, maxLoadFactor. split_and!; try done.
  - lia.
  - rewrite Hkeys1 in Hkeys2. by apply Permutation_cons_inv in Hkeys2.
  - congruence.
  - intros Hg.
    destruct (place_shape sizes s key HI Hk Hnot)
      as (s1' & l1 & l2 & Hplace & _ & Hall & Hall1 & _ & _ & Hbc1 & _
          & Hidx1 & _).
    assert (s1' = s1) as ->.
    { unfold insert in Hins. rewrite Hc in Hins. simpl in Hins.
      rewrite Hg in Hins. simpl in Hins. congruence. }
    assert ((nextNode s, key) ∈ allKeys s1) as Hnode.
    { rewrite Hall1. apply elem_of_app. right. left. }
    pose proof (find_hit sizes s1 _ key HI1 Hk Hnode) as Hfind.
    destruct (erase_by_key_is_erase_it s1 _ key s2 Hfind Her) as [next He].
    destruct (erase_it_shape s1 _ s2 next He)
      as (l1' & k' & l2' & Hall1' & Hn' & Hall2 & _).
    assert (nextNode s ∉ l1.*1) as Hn.
    { intros Hin. apply list_elem_of_fmap in Hin as (x & Hx & Hin).
      pose proof (inv_fresh sizes s HI) as Hfresh.
      rewrite Forall_forall in Hfresh.
      assert (x ∈ allKeys s) as Hxs
        by (rewrite Hall; apply elem_of_app; by left).
      specialize (Hfresh x Hxs). lia. }
    rewrite Hall1 in Hall1'.
    destruct (split_at_node _ key k' l1 l2 l1' l2' Hn Hn' Hall1')
      as (-> & -> & ->).
    assert (allKeys s2 = allKeys s) as Heq by congruence.
    split_and!; [done| |congruence|congruence].
    apply (Inv_buckets_eq sizes); [done..|congruence].
Qed.

Lemma insert_then_erase_restores_witness :
  ∃ s1 s2,
    insert sizes_7_17 seven_keys 9 = Some s1 ∧ erase s1 9 = Some s2
    ∧ size s2 = size seven_keys
    ∧ keys s2 ≡ₚ keys seven_keys
    ∧ maxLoadFactor s2 = maxLoadFactor seven_keys
    ∧ (grows sizes_7_17 seven_keys = false →
       allKeys s2 = allKeys seven_keys ∧ buckets s2 = buckets seven_keys
       ∧ currentPrimeIndex s2 = currentPrimeIndex seven_keys
       ∧ bucketCount s2 = bucketCount seven_keys).
Proof.
  apply (insert_then_erase_restores sizes_7_17 seven_keys 9).
  - apply sizes_7_17_fits.
  - apply sizes_7_17_ascending.
  - apply seven_keys_reachable.
  - unfold is_int. lia.
  - by vm_compute.
Defined.

(** ** More on [rehash] *)

(** X14: [rehash] is a stable sort of the keys on their new bucket index:
    the new iteration meets the buckets in turn, and within every bucket
    the keys in the order the old iteration had them. *)
Theorem rehash_is_stable (sizes : list Z) (s : HashSet) (n : Z) :
  table_fits sizes → table_ascending sizes → reachable sizes s →
  ∃ s', rehash sizes s n = Some s'
    ∧ keys s'
      = concat ((λ b : nat,
                   filter (λ k, k mod bucketCount s' = Z.of_nat b) (keys s))
                <$> seq 0 (Z.to_nat (bucketCount s'))).
Proof.
  intros Hfit Hasc Hr.
  pose proof (reachable_Inv sizes Hfit Hasc s Hr) as HI.
  destruct (rehash_spec sizes Hfit s n HI) as (s' & Hre & _).
  exists s'. split; [done|].
  replace (Z.to_nat (bucketCount s')) with (length (buckets s'))
    by (unfold bucketCount; lia).
  unfold keys at 1. rewrite (rehash_shape sizes Hfit s n s' HI Hre).
  by rewrite keys_by_bucket, zip_seq_snd.
Qed.

Lemma rehash_is_stable_witness :
  ∃ s', rehash sizes_7_17 seven_keys 17 = Some s'
    ∧ keys s'
      = concat ((λ b : nat,
                   filter (λ k, k mod bucketCount s' = Z.of_nat b)
                     (keys seven_keys))
                <$> seq 0 (Z.to_nat (bucketCount s'))).
Proof.
  apply (rehash_is_stable sizes_7_17 seven_keys 17).
  - apply sizes_7_17_fits.
  - apply sizes_7_17_ascending.
  - apply seven_keys_reachable.
Defined.

(** X15: the bucket count [rehash(n)] leaves is the first entry of the
    table that is not below [n], with its index for the current index,
    also when that entry is smaller than the bucket count of before; when
    every entry is below [n] it is the last entry, and the current index is
    left as it was. *)
Theorem rehash_bucket_count (sizes : list Z) (s : HashSet) (n : Z) :
  table_fits sizes → table_ascending sizes → reachable sizes s →
  ∃ s', rehash sizes s n = Some s'
    ∧ bucketCount s' ∈ sizes
    ∧ (∀ (i : nat) m,
         sizes !! i = Some m → n <= m →
         (∀ (j : nat) m', (j < i)%nat → sizes !! j = Some m' → m' < n) →
         bucketCount s' = m ∧ currentPrimeIndex s' = Z.of_nat i)
    ∧ ((∀ m, m ∈ sizes → m < n) →
       last sizes = Some (bucketCount s')
       ∧ currentPrimeIndex s' = currentPrimeIndex s).
Proof.
  intros Hfit Hasc Hr.
  pose proof (reachable_Inv sizes Hfit Hasc s Hr) as HI.
  destruct (rehash_spec sizes Hfit s n HI) as (s' & Hre & HI' & _ & _ & _ & Ht).
  exists s'. split_and!; [done|by destruct HI'| |].
  - intros i m Hi Hle Hmin.
    destruct (pick_size n sizes 0) as [[m' j]|] eqn:Hp.
    + apply pick_size_Some in Hp as (k & -> & Hk & Hle' & Hmin').
      destruct Ht as [-> ->].
      destruct (Nat.lt_trichotomy k i) as [Hlt|[->|Hgt]].
      * pose proof (Hmin k m' Hlt Hk). lia.
      * rewrite Hi in Hk. injection Hk as ->. split; [done|lia].
      * pose proof (Hmin' i m Hgt Hi). lia.
    + apply pick_size_None in Hp. rewrite Forall_forall in Hp.
      pose proof (Hp m (list_elem_of_lookup_2 _ _ _ Hi)). lia.
  - intros Hall.
    destruct (pick_size n sizes 0) as [[m' j]|] eqn:Hp; [|done].
    apply pick_size_Some in Hp as (k & -> & Hk & Hle' & _).
    pose proof (Hall m' (list_elem_of_lookup_2 _ _ _ Hk)). lia.
Qed.

Lemma rehash_bucket_count_witness :
  ∃ s', rehash sizes_7_17 seven_keys 3 = Some s'
    ∧ bucketCount s' ∈ sizes_7_17
    ∧ (∀ (i : nat) m,
         sizes_7_17 !! i = Some m → 3 <= m →
         (∀ (j : nat) m', (j < i)%nat → sizes_7_17 !! j = Some m' → m' < 3) →
         bucketCount s' = m ∧ currentPrimeIndex s' = Z.of_nat i)
    ∧ ((∀ m, m ∈ sizes_7_17 → m < 3) →
       last sizes_7_17 = Some (bucketCount s')
       ∧ currentPrimeIndex s' = currentPrimeIndex seven_keys).
Proof.
  apply (rehash_bucket_count sizes_7_17 seven_keys 3).
  - apply sizes_7_17_fits.
  - apply sizes_7_17_ascending.
  - apply seven_keys_reachable.
Defined.

(** X16: [rehash(bucketCount())] changes neither the bucket count nor the
    size nor the order of the iteration, and it leaves the current index at
    the table entry that is the bucket count. *)
Theorem rehash_to_current_count (sizes : list Z) (s : HashSet) :
  table_fits sizes → table_ascending sizes → reachable sizes s →
  ∃ s', rehash sizes s (bucketCount s) = Some s'
    ∧ bucketCount s' = bucketCount s
    ∧ size s' = size s
    ∧ keys s' = keys s
    ∧ sizes !! Z.to_nat (currentPrimeIndex s') = Some (bucketCount s').
Proof.
  intros Hfit Hasc Hr.
  pose proof (reachable_Inv sizes Hfit Hasc s Hr) as HI.
  destruct (rehash_spec sizes Hfit s (bucketCount s) HI)
    as (s' & Hre & _ & _ & Hcnt & _ & Ht).
  pose proof (inv_table sizes s HI) as Hin.
  apply list_elem_of_lookup in Hin as [i Hi].
  rewrite (pick_size_entry sizes Hasc i _ Hi) in Ht. destruct Ht as [Hbc Hidx].
  exists s'. split_and!; try done.
  - unfold keys at 1. rewrite (rehash_shape sizes Hfit s _ s' HI Hre).
    rewrite keys_by_bucket, zip_seq_snd, Hbc.
    replace (length (buckets s')) with (length (buckets s))
      by (unfold bucketCount in Hbc; lia).
    unfold keys. rewrite <- keys_by_bucket.
    by rewrite (Inv_concat_filter sizes s HI).
  - by rewrite Hidx, Nat2Z.id, Hbc.
Qed.

Lemma rehash_to_current_count_witness :
  ∃ s', rehash sizes_7_17 seven_keys (bucketCount seven_keys) = Some s'
    ∧ bucketCount s' = bucketCount seven_keys
    ∧ size s' = size seven_keys
    ∧ keys s' = keys seven_keys
    ∧ sizes_7_17 !! Z.to_nat (currentPrimeIndex s') = Some (bucketCount s').
Proof.
  apply (rehash_to_current_count sizes_7_17 seven_keys).
  - apply sizes_7_17_fits.
  - apply sizes_7_17_ascending.
  - apply seven_keys_reachable.
Defined.

(** ** Which iterators stay valid *)

(** X17: [rehash] moves every key to a new node, so no iterator from before
    it points into the list after it: such an iterator is invalid, and so
    is an [erase] through it. *)
Theorem rehash_invalidates_iterators (sizes : list Z) (s : HashSet) (n : Z)
    (m : nat) (k : Z) :
  table_fits sizes → table_ascending sizes → reachable sizes s →
  (m, k) ∈ allKeys s →
  ∃ s', rehash sizes s n = Some s'
    ∧ from (allKeys s') (At m) = None
    ∧ erase_it s' (At m) = None.
Proof.
  intros Hfit Hasc Hr Hin.
  pose proof (reachable_Inv sizes Hfit Hasc s Hr) as HI.
  destruct (rehash_spec sizes Hfit s n HI) as (s' & Hre & _).
  exists s'. split; [done|].
  assert (seek m (allKeys s') = None) as Hseek.
  { apply seek_None. intros Hm.
    apply list_elem_of_fmap in Hm as (x & -> & Hx).
    pose proof (rehash_fresh sizes Hfit s n s' HI Hre) as Hnew.
    pose proof (inv_fresh sizes s HI) as Hold.
    rewrite Forall_forall in Hnew, Hold.
    specialize (Hnew x Hx). specialize (Hold _ Hin). simpl in Hold. lia. }
  split; [done|]. unfold erase_it. by rewrite Hseek.
Qed.

Lemma rehash_invalidates_iterators_witness :
  ∃ s', rehash sizes_7_17 seven_keys 17 = Some s'
    ∧ from (allKeys s') (At 3) = None
    ∧ erase_it s' (At 3) = None.
Proof.
  apply (rehash_invalidates_iterators sizes_7_17 seven_keys 17 3 15).
  - apply sizes_7_17_fits.
  - apply sizes_7_17_ascending.
  - apply seven_keys_reachable.
  - apply list_elem_of_In. simpl. tauto.
Defined.

(** X18: an iterator to the node of a key stays valid and keeps pointing at
    that key through the erase of another key, and through the insert of
    another key that does not grow the table. *)
Theorem iterators_stay_valid (sizes : list Z) (s : HashSet) (key : Z)
    (m : nat) (k : Z) :
  table_fits sizes → table_ascending sizes → reachable sizes s →
  is_int key → k ≠ key → (m, k) ∈ allKeys s →
  ∃ s1 s2,
    insert sizes s key = Some s1
    ∧ (grows sizes s = false →
       ∃ rest, from (allKeys s1) (At m) = Some ((m, k) :: rest))
    ∧ erase s key = Some s2
    ∧ ∃ rest, from (allKeys s2) (At m) = Some ((m, k) :: rest).
Proof.
  intros Hfit Hasc Hr Hk Hne Hin.
  pose proof (reachable_Inv sizes Hfit Hasc s Hr) as HI.
  assert (∃ s1, insert sizes s key = Some s1 ∧ Inv sizes s1
                ∧ (grows sizes s = false → (m, k) ∈ allKeys s1))
    as (s1 & Hins & HI1 & H1).
  { destruct (decide (key ∈ keys s)) as [Hin'|Hnot].
    - exists s. split_and!; [|done..]. by apply insert_present.
    - destruct (insert_absent sizes Hfit Hasc s key HI Hk Hnot)
        as (s1 & Hins & HI1 & _).
      exists s1. split_and!; [done..|]. intros Hg.
      destruct (place_shape sizes s key HI Hk Hnot)
        as (s1' & l1 & l2 & Hplace & _ & Hall & Hall1 & _).
      assert (s1' = s1) as ->.
      { unfold insert in Hins.
        rewrite (contains_spec sizes s key HI Hk) in Hins.
        rewrite bool_decide_eq_false_2 in Hins by done. simpl in Hins.
        rewrite Hg in Hins. simpl in Hins. congruence. }
      rewrite Hall in Hin. rewrite Hall1.
      rewrite elem_of_app in Hin. rewrite elem_of_app, elem_of_cons. tauto. }
  assert (∃ s2, erase s key = Some s2 ∧ Inv sizes s2 ∧ (m, k) ∈ allKeys s2)
    as (s2 & Her & HI2 & H2).
  { destruct (decide (key ∈ keys s)) as [Hin'|Hnot].
    - destruct (erase_present sizes s key HI Hk Hin')
        as (s2 & Her & HI2 & _).
      exists s2. split_and!; [done..|].
      unfold keys in Hin'.
      apply list_elem_of_fmap in Hin' as ([n k0] & -> & Hin'). simpl in *.
      pose proof (find_hit sizes s n k0 HI Hk Hin') as Hfind.
      destruct (erase_by_key_is_erase_it s n k0 s2 Hfind Her) as [next He].
      destruct (erase_it_spec sizes s n k0 HI Hin')
        as (s2' & next' & He' & _ & Hperm & _).
      rewrite He in He'. injection He' as <- <-.
      rewrite Hperm in Hin. apply elem_of_cons in Hin as [[= _ ->]|Hin];
        done.
    - exists s. split_and!; [|done..]. by apply (erase_absent sizes). }
  exists s1, s2. split_and!; try done.
  - intros Hg. by apply seek_node; [apply (inv_ids sizes s1 HI1)|apply H1].
  - by apply seek_node; [apply (inv_ids sizes s2 HI2)|].
Qed.

Lemma iterators_stay_valid_witness :
  ∃ s1 s2,
    insert sizes_7_17 seven_keys 9 = Some s1
    ∧ (grows sizes_7_17 seven_keys = false →
       ∃ rest, from (allKeys s1) (At 3) = Some ((3%nat, 15) :: rest))
    ∧ erase seven_keys 9 = Some s2
    ∧ ∃ rest, from (allKeys s2) (At 3) = Some ((3%nat, 15) :: rest).
Proof.
  apply (iterators_stay_valid sizes_7_17 seven_keys 9 3 15).
  - apply sizes_7_17_fits.
  - apply sizes_7_17_ascending.
  - apply seven_keys_reachable.
  - unfold is_int. lia.
  - lia.
  - apply list_elem_of_In. simpl. tauto.
Defined.

(** ** Copies *)



(** ** The load factor after the setter *)

(** X20: whenever the setter of the maximum load factor changes the bucket
    count, the load factor it leaves does not exceed the new maximum. *)
Theorem set_maxLoadFactor_reaches_bound (sizes : list Z) (s : HashSet)
    (maxLoad : spec_float) :
  table_fits sizes → table_ascending sizes → reachable sizes s →
  ∃ s', set_maxLoadFactor sizes s maxLoad = Some s'
    ∧ (bucketCount s' ≠ bucketCount s →
       fle (loadFactor s') (maxLoadFactor s') = true).
Proof.
  intros Hfit Hasc Hr.
  pose proof (reachable_Inv sizes Hfit Hasc s Hr) as HI0.
  pose proof (with_maxLFactor_Inv sizes s maxLoad HI0) as HI.
  unfold set_maxLoadFactor.
  destruct (fgt _ _); [|by eexists].
  destruct (first_fit _ _ _) as [n|] eqn:Hff; [|by eexists].
  apply first_fit_Some in Hff as (k & Hk & Hle & _).
  rewrite lookup_drop in Hk.
  destruct (rehash_spec sizes Hfit _ n HI)
    as (s' & -> & HI' & _ & Hcnt & Hmax & Ht).
  rewrite (pick_size_entry sizes Hasc _ _ Hk) in Ht. destruct Ht as [Hbc _].
  exists s'. split; [done|]. intros _.
  unfold loadFactor, maxLoadFactor.
  pose proof (inv_fits sizes s' HI').
  rewrite decide_True by lia. by rewrite Hcnt, Hbc, Hmax.
Qed.

Lemma set_maxLoadFactor_reaches_bound_witness :
  ∃ s', set_maxLoadFactor sizes_7_17 seven_keys
          (fdiv (float_of 1) (float_of 2)) = Some s'
    ∧ (bucketCount s' ≠ bucketCount seven_keys →
       fle (loadFactor s') (maxLoadFactor s') = true).
Proof.
  apply (set_maxLoadFactor_reaches_bound sizes_7_17 seven_keys
           (fdiv (float_of 1) (float_of 2))).
  - apply sizes_7_17_fits.
  - apply sizes_7_17_ascending.
  - apply seven_keys_reachable.
Defined.
